(** * jackal: the incremental XML stanza parser (xml/parser.go)

    A shallow embedding of [Parser.ParseElement] and its helpers, over a
    model of the token interface of Go's [encoding/xml] decoder, and the
    properties of the parser stated in the specification. *)

From Stdlib Require Import ZArith Lia.
From stdpp Require Import base list strings.

Local Open Scope Z_scope.

(** ** The consumed tokenizer interface (Go's encoding/xml)

    [Decoder.RawToken] does not check that start and end tags match and
    does not translate prefixes: [Space] holds the prefix as written. *)

Record Name := mkName { Space : string; Local : string }.

Record Attr := mkAttr { AttrName : Name; AttrValue : string }.

Inductive Token :=
| StartElement (name : Name) (attr : list Attr)
| EndElement (name : Name)
| CharData (data : string)
| Comment (data : string)
| ProcInst (target inst : string)
| Directive (data : string).

(** Go's [error] values the parser can hand to its caller. *)
Inductive error :=
| ErrTooLargeStanza
| ErrStreamClosedByPeer
| ErrUnexpectedEnd (name : string)
| DecoderError (msg : string).

(** One successful [RawToken] read: the token and the value [InputOffset]
    reports once it has been read. *)
Abbreviation Read := (Token * Z)%type.

(** The failure the decoder ends on (io.EOF, a syntax error, a failure of
    the reader): its message, and the bytes the failing read takes from the
    input before it gives up: none for io.EOF at the end of the input, the
    bytes of an unterminated tag for a syntax error. *)
Record Failure := mkFailure {
  message : string;
  consumed : Z
}.

(** The decoder over its input: the reads still to come, the current input
    offset, and the failure it ends on once the reads are used up. *)
Record Decoder := mkDecoder {
  pending : list Read;
  offset : Z;
  err : Failure
}.

(** The decoder after the failing read: the input offset has moved over the
    bytes that read consumed; the error is sticky, and a later read returns
    it again without touching the input. *)
Definition failed (d : Decoder) : Decoder :=
  mkDecoder [] (offset d + consumed (err d)) (mkFailure (message (err d)) 0).

Definition RawToken (d : Decoder) : (Token + error) * Decoder :=
  match pending d with
  | [] => (inr (DecoderError (message (err d))), failed d)
  | (t, off) :: rest => (inl t, mkDecoder rest off (err d))
  end.

Definition InputOffset (d : Decoder) : Z := offset d.

(** ** Elements *)

Record Attribute := mkAttribute { Label : string; Value : string }.

(** Modelled from the spec: the declaration of [attributeSet] (element.go
    is not part of the sources).  An attribute set is an ordered mapping from
    qualified attribute name to value; insertion order is kept, and when a
    qualified name occurs again the last value wins, at the position of the
    latest occurrence. *)
Definition attributeSet_put (s : list Attribute) (a : Attribute) : list Attribute :=
  filter (λ b, Label b ≠ Label a) s ++ [a].

Definition attributeSet (attrs : list Attribute) : list Attribute :=
  foldl attributeSet_put [] attrs.

(** Modelled from the spec: the declaration of [Element] (element.go is not
    part of the sources): a qualified name, an attribute set, a text that is
    initially empty, and the children in document order. *)
#[warnings="-register-all"]
Inductive Element :=
| mkElement (name : string) (attrs : list Attribute) (text : string)
            (elements : list Element).

Definition ElementName (e : Element) : string :=
  match e with mkElement n _ _ _ => n end.
Definition Attributes (e : Element) : list Attribute :=
  match e with mkElement _ a _ _ => a end.
Definition Text (e : Element) : string :=
  match e with mkElement _ _ t _ => t end.
Definition Elements (e : Element) : list Element :=
  match e with mkElement _ _ _ c => c end.

(** [elem.text = s] *)
Definition setText (e : Element) (s : string) : Element :=
  match e with mkElement n a _ c => mkElement n a s c end.

(** Modelled from the spec: [AppendElement] appends the child as the last
    child of the element. *)
Definition AppendElement (e child : Element) : Element :=
  match e with mkElement n a t c => mkElement n a t (c ++ [child]) end.

(** ** Run-time panics

    Indexing and slicing a Go slice out of range panics. *)
Inductive exec (A : Type) :=
| Ok (a : A)
| Panic.
Arguments Ok {A} a.
Arguments Panic {A}.

#[global] Instance exec_bind : MBind exec := λ A B f m,
  match m with
  | Ok a => f a
  | Panic => Panic
  end.

(** [s[i]] *)
Definition index (s : list Element) (i : Z) : exec Element :=
  if i <? 0 then Panic
  else match s !! Z.to_nat i with
       | Some e => Ok e
       | None => Panic
       end.

(** [s[:i]].  Go allows [i] up to the capacity of [s]; the parser only ever
    slices at an index below the length, and the model takes the length as
    the bound. *)
Definition slice_to (s : list Element) (i : Z) : exec (list Element) :=
  if (i <? 0) || (Z.of_nat (length s) <? i) then Panic
  else Ok (take (Z.to_nat i) s).

(** ** The parser *)

Definition rootElementIndex : Z := -1.

Definition streamName : string := "stream".

(** [parsingIndex] is a Go [int]; it is [len(parsingStack) - 1] throughout
    (see [wf]), so its increments stay within the length of a slice and are
    written without wrap-around.  The offsets are [int64]. *)
Record Parser := mkParser {
  dec : Decoder;
  nextElement : option Element;
  parsingIndex : Z;
  parsingStack : list Element;
  inElement : bool;
  lastOffset : Z;
  maxStanzaSize : Z
}.

Definition set_dec (p : Parser) (d : Decoder) : Parser :=
  mkParser d (nextElement p) (parsingIndex p) (parsingStack p) (inElement p)
           (lastOffset p) (maxStanzaSize p).

Definition NewParser (d : Decoder) (maxStanzaSize : Z) : Parser :=
  mkParser d None rootElementIndex [] false 0 maxStanzaSize.

(** [int64] subtraction, with its wrap-around. *)
Definition wrap64 (z : Z) : Z := (z + 2 ^ 63) mod 2 ^ 64 - 2 ^ 63.

Definition sub64 (a b : Z) : Z := wrap64 (a - b).

Definition xmlName (space local : string) : string :=
  if (0 <? String.length space)%nat then space +:+ ":" +:+ local
  else local.

Definition startElement (p : Parser) (name : Name) (attr : list Attr) : Parser :=
  let name' :=
    if (0 <? String.length (Space name))%nat
    then Space name +:+ ":" +:+ Local name
    else Local name in
  let attrs :=
    map (λ a, mkAttribute (xmlName (Space (AttrName a)) (Local (AttrName a)))
                          (AttrValue a)) attr in
  let element := mkElement name' (attributeSet attrs) "" [] in
  mkParser (dec p) (nextElement p) (parsingIndex p + 1)
           (parsingStack p ++ [element]) true
           (lastOffset p) (maxStanzaSize p).

Definition setElementText (p : Parser) (t : string) : exec Parser :=
  elem ← index (parsingStack p) (parsingIndex p);
  Ok (mkParser (dec p) (nextElement p) (parsingIndex p)
               (<[Z.to_nat (parsingIndex p) := setText elem t]> (parsingStack p))
               (inElement p) (lastOffset p) (maxStanzaSize p)).

Definition closeElement (p : Parser) : exec Parser :=
  element ← index (parsingStack p) (parsingIndex p);
  stack ← slice_to (parsingStack p) (parsingIndex p);
  let idx := parsingIndex p - 1 in
  if idx =? rootElementIndex then
    Ok (mkParser (dec p) (Some element) idx stack false
                 (lastOffset p) (maxStanzaSize p))
  else
    parent ← index stack idx;
    Ok (mkParser (dec p) (nextElement p) idx
                 (<[Z.to_nat idx := AppendElement parent element]> stack) false
                 (lastOffset p) (maxStanzaSize p)).

(** [endElement] returns the parser and the error value of the Go function. *)
Definition endElement (p : Parser) (name : Name) : exec (Parser * option error) :=
  let name' := xmlName (Space name) (Local name) in
  top ← index (parsingStack p) (parsingIndex p);
  if negb (String.eqb (ElementName top) name') then
    Ok (p, Some (ErrUnexpectedEnd name'))
  else
    p' ← closeElement p;
    Ok (p', None).

Definition isStream (name : Name) : bool :=
  String.eqb (Local name) streamName && String.eqb (Space name) streamName.

(** The size check at the head of the loop:
    [p.maxStanzaSize > 0 && off-p.lastOffset > p.maxStanzaSize]. *)
Definition exceeds (maxSize last off : Z) : bool :=
  (0 <? maxSize) && (maxSize <? sub64 off last).

Definition tooLarge (p : Parser) : bool :=
  let off := InputOffset (dec p) in
  exceeds (maxStanzaSize p) (lastOffset p) off.

(** The first result of [ParseElement], of the interface type [XElement]
    (declared in element.go, which is not part of the sources; [*Element]
    implements it).  [return nil, ...] hands back the nil interface.
    [return ret, nil] converts the pointer [ret] to the interface: the value
    holds that pointer, and it is not the nil interface even when the pointer
    is nil. *)
Inductive XElement :=
| XNil
| XPtr (ptr : option Element).

(** What a [ParseElement] call hands back: the [XElement], the error (nil is
    [None]) and the parser after the call. *)
Definition Result : Type := XElement * option error * Parser.

(** How one pass through the [switch] leaves it. *)
Inductive Flow :=
| Return (r : Result)
| GotoDone (p : Parser)
| NextToken (p : Parser).

Definition classify (p : Parser) (t : Token) : exec Flow :=
  match t with
  | ProcInst _ _ => Ok (Return (XNil, None, p))
  | StartElement name attr =>
      let p1 := startElement p name attr in
      if isStream name then
        p2 ← closeElement p1; Ok (GotoDone p2)
      else Ok (NextToken p1)
  | CharData data =>
      if negb (inElement p) then Ok (Return (XNil, None, p))
      else p1 ← setElementText p data; Ok (NextToken p1)
  | EndElement name =>
      if isStream name then Ok (Return (XNil, Some ErrStreamClosedByPeer, p))
      else
        r ← endElement p name;
        let p1 := fst r in
        if parsingIndex p1 =? rootElementIndex then Ok (GotoDone p1)
        else Ok (NextToken p1)
  | Comment _ | Directive _ => Ok (NextToken p)
  end.

(** The code after the label [done]. *)
Definition done (p : Parser) : Result :=
  let ret := nextElement p in
  (XPtr ret, None,
   mkParser (dec p) None (parsingIndex p) (parsingStack p) (inElement p)
            (InputOffset (dec p)) (maxStanzaSize p)).

(** The [for] loop, entered with the token [t] just read; [pend] is
    [pending (dec p)], the argument the recursion descends on, and the read
    at the foot of the loop is [RawToken] on it: it fails on [[]]. *)
Fixpoint loop (pend : list Read) (p : Parser) (t : Token) {struct pend}
  : exec Result :=
  if tooLarge p then Ok (XNil, Some ErrTooLargeStanza, p)
  else
    f ← classify p t;
    match f with
    | Return r => Ok r
    | GotoDone p1 => Ok (done p1)
    | NextToken p1 =>
        match pend with
        | [] =>
            Ok (XNil, Some (DecoderError (message (err (dec p1)))),
                set_dec p1 (failed (dec p1)))
        | (t', off) :: pend' =>
            loop pend' (set_dec p1 (mkDecoder pend' off (err (dec p1)))) t'
        end
    end.

Definition ParseElement (p : Parser) : exec Result :=
  match RawToken (dec p) with
  | (inr e, d) => Ok (XNil, Some e, set_dec p d)
  | (inl t, d) => loop (pending d) (set_dec p d) t
  end.

(** Modelled from the spec: the caller's drive loop (the connection layer is
    not part of the sources).  A call that returns [nil, nil] is retried at
    once, and any other result is handed on as it is; every call reads at
    least one token or fails, so [S (length (pending (dec p)))] calls are
    enough. *)
Fixpoint drive (fuel : nat) (p : Parser) : exec Result :=
  match fuel with
  | O => Ok (XNil, None, p)
  | S fuel' =>
      match ParseElement p with
      | Ok (XNil, None, p') => drive fuel' p'
      | r => r
      end
  end.

Definition ParseStanza (p : Parser) : exec Result :=
  drive (S (length (pending (dec p)))) p.

(** The results of [n] successive calls, as the caller sees them. *)
Fixpoint results (n : nat) (p : Parser)
  : list (exec (XElement * option error)) :=
  match n with
  | O => []
  | S n' =>
      match ParseElement p with
      | Ok (x, e, p') => Ok (x, e) :: results n' p'
      | Panic => [Panic]
      end
  end.

(** ** Well-formed documents, for the statements

    A document unit as the tokenizer delivers it: character data and
    elements with a name, attributes and a body. *)
#[warnings="-register-all"]
Inductive Node :=
| NText (data : string)
| NElem (name : Name) (attr : list Attr) (body : list Node).

Fixpoint tokens (n : Node) : list Token :=
  match n with
  | NText s => [CharData s]
  | NElem name attr body =>
      StartElement name attr :: flat_map tokens body ++ [EndElement name]
  end.

Definition qualified (attr : list Attr) : list Attribute :=
  map (λ a, mkAttribute (xmlName (Space (AttrName a)) (Local (AttrName a)))
                        (AttrValue a)) attr.

(** No element inside is named stream:stream, and no element has two
    attributes of the same qualified name. *)
Fixpoint wellFormed (n : Node) : Prop :=
  match n with
  | NText _ => True
  | NElem name attr body =>
      isStream name = false ∧ NoDup (Label <$> qualified attr) ∧
      foldr (λ c P, wellFormed c ∧ P) True body
  end.

Definition isElem (n : Node) : bool :=
  match n with NElem _ _ _ => true | NText _ => false end.

(** The character data right after the start tag, before the first child:
    of several such tokens, the last. *)
Fixpoint leadText (body : list Node) (acc : string) : string :=
  match body with
  | NText s :: body' => leadText body' s
  | _ => acc
  end.

(** The element a unit stands for ([None] for character data) when character
    data is taken where it directly follows the start tag. *)
Fixpoint toElement (n : Node) : option Element :=
  match n with
  | NText _ => None
  | NElem name attr body =>
      Some (mkElement (xmlName (Space name) (Local name)) (qualified attr)
                      (leadText body "") (omap toElement body))
  end.

(** The element a unit stands for under the overwrite rule of the data
    model: the text is the last character data directly inside it. *)
Fixpoint lastText (body : list Node) (acc : string) : string :=
  match body with
  | [] => acc
  | NText s :: body' => lastText body' s
  | NElem _ _ _ :: body' => lastText body' acc
  end.

Fixpoint toElementLast (n : Node) : option Element :=
  match n with
  | NText _ => None
  | NElem name attr body =>
      Some (mkElement (xmlName (Space name) (Local name)) (qualified attr)
                      (lastText body "") (omap toElementLast body))
  end.

(** Character data stands only before the first child, at every depth. *)
Fixpoint textFirst (body : list Node) : bool :=
  match body with
  | [] => true
  | NText _ :: body' => textFirst body'
  | NElem _ _ _ :: body' => forallb isElem body'
  end.

Fixpoint textLeads (n : Node) : bool :=
  match n with
  | NText _ => true
  | NElem _ _ body => textFirst body && forallb textLeads body
  end.

Fixpoint nsize (n : Node) : nat :=
  match n with
  | NText _ => 1
  | NElem _ _ body => S (foldr (λ c acc, nsize c + acc)%nat 0%nat body)
  end.

Definition lsize (body : list Node) : nat :=
  foldr (λ c acc, nsize c + acc)%nat 0%nat body.

Definition wellFormedAll (body : list Node) : Prop :=
  foldr (λ c P, wellFormed c ∧ P) True body.

(** ** Predicates on the parser

    The invariant between calls: the index is the length of the stack less
    one, no result is pending, and the flag [inElement] is only set while an
    element is open. *)
Definition wf (p : Parser) : Prop :=
  parsingIndex p = Z.of_nat (length (parsingStack p)) - 1 ∧
  nextElement p = None ∧
  (inElement p = true → parsingStack p ≠ []).

Definition flow_wf (f : Flow) : Prop :=
  match f with
  | Return r => wf r.2
  | GotoDone p => wf (done p).2
  | NextToken p => wf p
  end.

Definition flow_parser (f : Flow) : Parser :=
  match f with
  | Return r => r.2
  | GotoDone p => p
  | NextToken p => p
  end.

Definition streamTag : Name := mkName streamName streamName.

(** The element of a start tag stream:stream. *)
Definition streamOpen (attr : list Attr) : Element :=
  mkElement "stream:stream" (attributeSet (qualified attr)) "" [].

(** The decoder once [reads] have been read and [rest] is still to come. *)
Definition seek (d : Decoder) (reads rest : list Read) : Decoder :=
  mkDecoder rest
            (match last reads with Some r => r.2 | None => offset d end)
            (err d).

(** No read of [reads] trips the size check. *)
Definition fits (maxSize last : Z) (reads : list Read) : Prop :=
  Forall (λ r, exceeds maxSize last r.2 = false) reads.

(** The parser the loop stands at once it has gone through the reads [pre]
    without leaving the call: each of them passes the size check, and the
    [switch] goes on to the next read.  [rest] is the input after [pre]. *)
Fixpoint advance (pre rest : list Read) (p : Parser) : option Parser :=
  match pre with
  | [] => Some p
  | (t, off) :: pre' =>
      let p0 := set_dec p (mkDecoder (pre' ++ rest) off (err (dec p))) in
      if tooLarge p0 then None
      else match classify p0 t with
           | Ok (NextToken p1) => advance pre' rest p1
           | _ => None
           end
  end.

(** Tokens the [switch] has no case for: the loop reads on, the parser
    as it was. *)
Definition passedOver (t : Token) : bool :=
  match t with
  | Comment _ | Directive _ => true
  | _ => false
  end.

(** Modelled from the spec: the qualified name of the data model, written
    namespace:local when a namespace is present and local otherwise. *)
Definition qualifiedName (n : Name) : string :=
  match Space n with
  | EmptyString => Local n
  | space => space +:+ ":" +:+ Local n
  end.

(** Modelled from the spec: the attributes of a start tag under their
    qualified names, in their source order. *)
Definition labelled (attr : list Attr) : list Attribute :=
  map (λ a, mkAttribute (qualifiedName (AttrName a)) (AttrValue a)) attr.

(** ** The drive loop, token by token

    Retrying a call that returned [nil, nil] resumes
    where it stopped, so a driven parser runs over the reads as one loop
    that goes on at those returns. *)
Definition pumpBody (continue : Parser → exec Result) (p : Parser) (t : Token)
  : exec Result :=
  if tooLarge p then Ok (XNil, Some ErrTooLargeStanza, p)
  else
    f ← classify p t;
    match f with
    | Return (XNil, None, p1) => continue p1
    | Return r => Ok r
    | GotoDone p1 => Ok (done p1)
    | NextToken p1 => continue p1
    end.

Fixpoint pump (pend : list Read) (p : Parser) : exec Result :=
  match pend with
  | [] =>
      Ok (XNil, Some (DecoderError (message (err (dec p)))),
          set_dec p (failed (dec p)))
  | (t, off) :: pend' =>
      pumpBody (pump pend') (set_dec p (mkDecoder pend' off (err (dec p)))) t
  end.

Definition retry (fuel : nat) (r : exec Result) : exec Result :=
  match r with
  | Ok (XNil, None, p') => drive fuel p'
  | r => r
  end.

(** The open element [par] once [body] has gone by; [b] is the flag
    [inElement] on entry. *)
Definition absorbBody (par : Element) (b : bool) (body : list Node) : Element :=
  mkElement (ElementName par) (Attributes par)
            (if b then leadText body (Text par) else Text par)
            (Elements par ++ omap toElement body).

Definition untouched (b : bool) (body : list Node) : bool :=
  b && forallb (λ c, negb (isElem c)) body.

(** ** Inputs of the examples *)

(** io.EOF at the end of the input: the failing read consumes nothing. *)
Definition EOF : Failure := mkFailure "EOF" 0.

Definition tag (s : string) : Name := mkName "" s.

(** The reads of [<!--x--><stream:stream to='x'>]. *)
Definition streamOpening : Decoder :=
  mkDecoder [(Comment "x", 8);
             (StartElement (mkName "stream" "stream")
                           [mkAttr (mkName "" "to") "x"], 30)] 0 EOF.

(** The reads of [<a><!--x--></stream:stream>]. *)
Definition streamClosing : Decoder :=
  mkDecoder [(StartElement (mkName "" "a") [], 3); (Comment "x", 11);
             (EndElement (mkName "stream" "stream"), 27)] 0 EOF.

(** The reads of [<a><b></a>], then the end of the input. *)
Definition mismatched : Decoder :=
  mkDecoder [(StartElement (tag "a") [], 3); (StartElement (tag "b") [], 6);
             (EndElement (tag "a"), 10)] 0 EOF.

(** The reads of [<a><b></a></b></a>]. *)
Definition mismatchedThenClosed : Decoder :=
  mkDecoder [(StartElement (tag "a") [], 3); (StartElement (tag "b") [], 6);
             (EndElement (tag "a"), 10); (EndElement (tag "b"), 14);
             (EndElement (tag "a"), 18)] 0 EOF.

(** The reads of [<a><stream:stream>]. *)
Definition streamInsideA : Decoder :=
  mkDecoder [(StartElement (tag "a") [], 3);
             (StartElement streamTag [], 18)] 0 EOF.

(** The reads of [<a><stream:stream><stream:stream><stream:stream></a>],
    52 bytes. *)
Definition streamsInsideA : Decoder :=
  mkDecoder [(StartElement (tag "a") [], 3);
             (StartElement streamTag [], 18); (StartElement streamTag [], 33);
             (StartElement streamTag [], 48); (EndElement (tag "a"), 52)]
            0 EOF.

(** The reads of [<a><bbbbbbbbbbbbbbbbbbbbbbbbb], where the input ends inside
    the second tag: the read of that tag fails, its 26 bytes consumed. *)
Definition unterminated : Decoder :=
  mkDecoder [(StartElement (tag "a") [], 3)] 0
            (mkFailure "XML syntax error on line 1: unexpected EOF" 26).

(** The unit [<a><b></b>t</a>] and its reads. *)
Definition textAfterChild : Node :=
  NElem (tag "a") [] [NElem (tag "b") [] []; NText "t"].

Definition textAfterChildReads : list Read :=
  [(StartElement (tag "a") [], 3); (StartElement (tag "b") [], 6);
   (EndElement (tag "b"), 10); (CharData "t", 11); (EndElement (tag "a"), 15)].

(** The reads of [<iq id="1">hi<q/></iq>]. *)
Definition iqReads : list Read :=
  [(StartElement (tag "iq") [mkAttr (tag "id") "1"], 11); (CharData "hi", 13);
   (StartElement (tag "q") [], 17); (EndElement (tag "q"), 17);
   (EndElement (tag "iq"), 22)].

(** The reads of [<a/>   <b/>]. *)
Definition twoStanzas : Decoder :=
  mkDecoder [(StartElement (tag "a") [], 4); (EndElement (tag "a"), 4);
             (CharData "   ", 7);
             (StartElement (tag "b") [], 11); (EndElement (tag "b"), 11)]
            0 EOF.

(** ** Predicates on the input, for further properties *)

(** The offsets the decoder reports never decrease and stay within the
    non-negative [int64] range, the one after the failing read included:
    [cur] is the current offset. *)
Fixpoint offsetsFrom (cur : Z) (reads : list Read) (fail : Failure) : Prop :=
  match reads with
  | [] => 0 ≤ consumed fail ∧ cur + consumed fail < 2 ^ 63
  | r :: reads' => cur ≤ r.2 < 2 ^ 63 ∧ offsetsFrom r.2 reads' fail
  end.

(** The committed offset is one the decoder has reported: it lies at or
    before the current one. *)
Definition offsetsOk (p : Parser) : Prop :=
  0 ≤ lastOffset p ≤ offset (dec p) ∧ offset (dec p) < 2 ^ 63 ∧
  offsetsFrom (offset (dec p)) (pending (dec p)) (err (dec p)).


(** The call returned, with a result or an error. *)
Definition returned {A} (r : exec A) : Prop := ∃ a, r = Ok a.

(** The call failed with [ErrTooLargeStanza], or with the decoder's error,
    of message [msg]. *)
Definition tooLargeOrExhausted (msg : string)
           (r : exec (XElement * option error)) : Prop :=
  r = Ok (XNil, Some ErrTooLargeStanza) ∨ r = Ok (XNil, Some (DecoderError msg)).


(** The offset the decoder stands at once [reads] have been read, [from]
    when there are none. *)
Definition endOffset (from : Z) (reads : list Read) : Z :=
  match last reads with Some r => r.2 | None => from end.

(** Each unit's reads fit the size limit, counted from the end of the unit
    before it. *)
Fixpoint unitsFit (maxSize from : Z) (readss : list (list Read)) : Prop :=
  match readss with
  | [] => True
  | reads :: more =>
      fits maxSize from reads ∧ unitsFit maxSize (endOffset from reads) more
  end.

(** The outcomes of [k] rounds of the drive loop, as the caller sees them. *)
Fixpoint stanzas (k : nat) (p : Parser)
  : list (exec (XElement * option error)) :=
  match k with
  | O => []
  | S k' =>
      match ParseStanza p with
      | Ok (x, e, p') => Ok (x, e) :: stanzas k' p'
      | Panic => [Panic]
      end
  end.

(** The character [:] (code 58, least significant bit first). *)
Definition colon : Ascii.ascii :=
  Ascii.Ascii false true false true true true false false.

(** No colon in the string. *)
Fixpoint colonFree (s : string) : bool :=
  match s with
  | EmptyString => true
  | String c s' => negb (Ascii.eqb c colon) && colonFree s'
  end.

(** Tokens that carry neither structure nor text: comments, directives
    and processing instructions. *)
Definition isNoise (t : Token) : bool :=
  match t with
  | Comment _ | Directive _ | ProcInst _ _ => true
  | _ => false
  end.

Definition withoutNoise (reads : list Read) : list Read :=
  filter (λ r, isNoise r.1 = false) reads.

(** The parser's own fields, the decoder apart. *)
Definition core (p : Parser)
  : option Element * Z * list Element * bool * Z * Z :=
  (nextElement p, parsingIndex p, parsingStack p, inElement p, lastOffset p,
   maxStanzaSize p).

(** An outcome as far as the parser's own fields go. *)
Definition view (r : exec Result)
  : exec (XElement * option error
          * (option Element * Z * list Element * bool * Z * Z)) :=
  match r with
  | Ok (x, e, p) => Ok (x, e, core p)
  | Panic => Panic
  end.

Definition flow_set_dec (d : Decoder) (f : Flow) : Flow :=
  match f with
  | Return (x, e, p) => Return (x, e, set_dec p d)
  | GotoDone p => GotoDone (set_dec p d)
  | NextToken p => NextToken (set_dec p d)
  end.

(** The tokens still to come inside open elements: for each open element,
    innermost first, the rest of its body and its end tag. *)
Fixpoint unwind (frames : list (Name * list Node)) : list Token :=
  match frames with
  | [] => []
  | (name, body) :: frames' =>
      flat_map tokens body ++ EndElement name :: unwind frames'
  end.

Definition framesOk (frames : list (Name * list Node)) : Prop :=
  Forall (λ fr, isStream fr.1 = false ∧ wellFormedAll fr.2) frames.

(** The stack holds the open elements of [frames], the innermost on top. *)
Definition stackOf (frames : list (Name * list Node)) (stack : list Element)
  : Prop :=
  Forall2 (λ e fr, ElementName e = xmlName (Space fr.1) (Local fr.1))
          (reverse stack) frames.

(** ** The stack as a list *)

Lemma index_top (s : list Element) (e : Element) :
  index (s ++ [e]) (Z.of_nat (length s)) = Ok e.
Proof.
  unfold index.
  destruct (Z.ltb_spec (Z.of_nat (length s)) 0) as [Hneg|_]; [lia|].
  rewrite Nat2Z.id. by rewrite list_lookup_middle.
Qed.

Lemma index_negative (s : list Element) (i : Z) : i < 0 → index s i = Panic.
Proof.
  intros Hi. unfold index.
  destruct (Z.ltb_spec i 0); [done | lia].
Qed.

Lemma slice_to_top (s : list Element) (e : Element) :
  slice_to (s ++ [e]) (Z.of_nat (length s)) = Ok s.
Proof.
  unfold slice_to. rewrite length_app. simpl.
  destruct (Z.ltb_spec (Z.of_nat (length s)) 0) as [Hneg|_]; [lia|].
  destruct (Z.ltb_spec (Z.of_nat (length s + 1)) (Z.of_nat (length s)))
    as [Hbig|_]; [lia|].
  simpl. rewrite Nat2Z.id. by rewrite take_app_length.
Qed.

Lemma insert_top (s : list Element) (e e' : Element) :
  <[length s := e']> (s ++ [e]) = s ++ [e'].
Proof.
  replace (length s) with (length s + 0)%nat at 1 by lia.
  by rewrite insert_app_r.
Qed.

Lemma nonempty_snoc (s : list Element) :
  s ≠ [] → ∃ s' e, s = s' ++ [e].
Proof.
  destruct s as [|x s] using rev_ind; [done|]. intros _. by exists s, x.
Qed.

(** ** The invariant, and what it says about the stack *)

Lemma wf_NewParser (d : Decoder) (m : Z) : wf (NewParser d m).
Proof. by repeat split. Qed.

Lemma wf_root (p : Parser) :
  wf p → parsingIndex p = rootElementIndex →
  parsingStack p = [] ∧ nextElement p = None ∧ inElement p = false.
Proof.
  intros (Hidx & Hnext & Hin) Hroot. unfold rootElementIndex in Hroot.
  assert (Hnil : parsingStack p = []).
  { destruct (parsingStack p); [done | simpl in Hidx; lia]. }
  repeat split; [done..|].
  destruct (inElement p); [|done]. by destruct Hin.
Qed.

Lemma wf_open (p : Parser) :
  wf p → 0 ≤ parsingIndex p →
  ∃ s e, parsingStack p = s ++ [e] ∧ parsingIndex p = Z.of_nat (length s).
Proof.
  intros (Hidx & _ & _) Hpos.
  destruct (nonempty_snoc (parsingStack p)) as (s & e & Hs).
  { intros Hnil. rewrite Hnil in Hidx. simpl in Hidx. lia. }
  exists s, e. split; [done|]. rewrite Hidx, Hs, length_app. simpl. lia.
Qed.

(** ** The helpers on a stack whose top is known *)

Lemma closeElement_root d nx (e : Element) b lo mx :
  closeElement (mkParser d nx 0 [e] b lo mx)
  = Ok (mkParser d (Some e) (-1) [] false lo mx).
Proof. reflexivity. Qed.

Lemma closeElement_nested d nx (s : list Element) (parent e : Element) b lo mx :
  closeElement (mkParser d nx (Z.of_nat (length (s ++ [parent])))
                         ((s ++ [parent]) ++ [e]) b lo mx)
  = Ok (mkParser d nx (Z.of_nat (length s))
                 (s ++ [AppendElement parent e]) false lo mx).
Proof.
  unfold closeElement. simpl.
  rewrite index_top, slice_to_top. simpl.
  rewrite length_app. simpl.
  replace (Z.of_nat (length s + 1) - 1) with (Z.of_nat (length s)) by lia.
  destruct (Z.eqb_spec (Z.of_nat (length s)) rootElementIndex) as [Heq|_].
  { unfold rootElementIndex in Heq. lia. }
  rewrite index_top. simpl. by rewrite Nat2Z.id, insert_top.
Qed.

Lemma setElementText_top d nx (s : list Element) (e : Element) b lo mx t :
  setElementText (mkParser d nx (Z.of_nat (length s)) (s ++ [e]) b lo mx) t
  = Ok (mkParser d nx (Z.of_nat (length s)) (s ++ [setText e t]) b lo mx).
Proof.
  unfold setElementText. simpl. rewrite index_top. simpl.
  by rewrite Nat2Z.id, insert_top.
Qed.

(** ** Names and attribute sets *)

Lemma xmlName_stream : xmlName streamName streamName = "stream:stream".
Proof. reflexivity. Qed.

Lemma isStream_true (n : Name) :
  isStream n = true ↔ n = mkName streamName streamName.
Proof.
  unfold isStream. destruct n as [sp lo]. simpl.
  rewrite andb_true_iff, !String.eqb_eq. split.
  - by intros [-> ->].
  - intros [= -> ->]. done.
Qed.

(** The attribute set of attributes with distinct names is the attributes
    themselves, in their order. *)
Lemma attributeSet_put_fresh (s : list Attribute) (a : Attribute) :
  Label a ∉ Label <$> s → attributeSet_put s a = s ++ [a].
Proof.
  intros Hfresh. unfold attributeSet_put. f_equal.
  induction s as [|b s IH]; [done|].
  rewrite fmap_cons, not_elem_of_cons in Hfresh. destruct Hfresh as [Hne Hs].
  rewrite filter_cons_True by congruence. f_equal. by apply IH.
Qed.

Lemma attributeSet_foldl (acc attrs : list Attribute) :
  NoDup (Label <$> acc ++ attrs) →
  foldl attributeSet_put acc attrs = acc ++ attrs.
Proof.
  revert acc. induction attrs as [|a attrs IH]; intros acc Hnd; simpl.
  - by rewrite app_nil_r.
  - rewrite attributeSet_put_fresh.
    + rewrite IH; rewrite <- app_assoc; done.
    + rewrite fmap_app, fmap_cons in Hnd.
      apply NoDup_app in Hnd as (_ & Hdisj & _).
      intros Hin. apply (Hdisj _ Hin). left.
Qed.

Lemma attributeSet_NoDup (attrs : list Attribute) :
  NoDup (Label <$> attrs) → attributeSet attrs = attrs.
Proof. intros Hnd. unfold attributeSet. by rewrite attributeSet_foldl. Qed.

(** ** Entering the loop *)

(** A call whose first read succeeds enters the loop with that token, the
    decoder standing behind it. *)
Lemma ParseElement_read (p : Parser) (t : Token) (off : Z) (rest : list Read) :
  pending (dec p) = (t, off) :: rest →
  ParseElement p = loop rest (set_dec p (mkDecoder rest off (err (dec p)))) t.
Proof. intros Hp. unfold ParseElement, RawToken. by rewrite Hp. Qed.

Lemma ParseElement_eof (p : Parser) :
  pending (dec p) = [] →
  ParseElement p
  = Ok (XNil, Some (DecoderError (message (err (dec p)))),
        set_dec p (failed (dec p))).
Proof. intros Hp. unfold ParseElement, RawToken. by rewrite Hp. Qed.

(** One pass of the loop, by the outcome of the size check. *)
Lemma loop_unfold (pend : list Read) (p : Parser) (t : Token) :
  loop pend p t =
  if tooLarge p then Ok (XNil, Some ErrTooLargeStanza, p)
  else
    f ← classify p t;
    match f with
    | Return r => Ok r
    | GotoDone p1 => Ok (done p1)
    | NextToken p1 =>
        match pend with
        | [] =>
            Ok (XNil, Some (DecoderError (message (err (dec p1)))),
                set_dec p1 (failed (dec p1)))
        | (t', off) :: pend' =>
            loop pend' (set_dec p1 (mkDecoder pend' off (err (dec p1)))) t'
        end
    end.
Proof. by destruct pend. Qed.

(** ** The invariant is kept *)

Lemma wf_set_dec (p : Parser) (d : Decoder) : wf p → wf (set_dec p d).
Proof. done. Qed.

Lemma wf_startElement (p : Parser) (name : Name) (attr : list Attr) :
  wf p → wf (startElement p name attr).
Proof.
  intros (Hidx & Hnext & _). repeat split; simpl.
  - rewrite length_app. simpl. lia.
  - done.
  - intros _ Hnil. by apply app_eq_nil in Hnil as [_ ?].
Qed.

(** Closing the top element: at the root the element becomes the pending
    result, otherwise the invariant holds again. *)
Lemma closeElement_cases (p p' : Parser) :
  wf p → closeElement p = Ok p' →
  (parsingIndex p' = rootElementIndex ∧ parsingStack p' = [] ∧
   inElement p' = false ∧ is_Some (nextElement p'))
  ∨ (0 ≤ parsingIndex p' ∧ wf p').
Proof.
  intros Hwf Hclose.
  destruct (Z.lt_ge_cases (parsingIndex p) 0) as [Hneg|Hpos].
  { unfold closeElement in Hclose. by rewrite index_negative in Hclose. }
  destruct (wf_open p Hwf Hpos) as (s & e & Hstack & Hidx).
  destruct Hwf as (_ & Hnext & _).
  destruct p as [d nx idx st b lo mx]. simpl in *. subst.
  destruct s as [|parent s _] using rev_ind.
  - cbn [length app Z.of_nat] in Hclose.
    rewrite closeElement_root in Hclose. injection Hclose as <-.
    left. simpl. eauto.
  - rewrite closeElement_nested in Hclose. injection Hclose as <-.
    right. simpl. split; [lia|]. repeat split; simpl; [|done..].
    rewrite length_app. simpl. lia.
Qed.

Lemma wf_done (p : Parser) :
  parsingIndex p = Z.of_nat (length (parsingStack p)) - 1 →
  inElement p = false →
  wf (done p).2.
Proof. intros Hidx Hin. repeat split; simpl; [done..|]. by rewrite Hin. Qed.

Lemma wf_setElementText (p p' : Parser) (t : string) :
  wf p → setElementText p t = Ok p' → wf p'.
Proof.
  intros (Hidx & Hnext & Hin) Hset. unfold setElementText in Hset.
  destruct (index (parsingStack p) (parsingIndex p)) as [e|]; [|done].
  injection Hset as <-. repeat split; simpl.
  - by rewrite length_insert.
  - done.
  - intros Hb Hnil. apply (Hin Hb).
    apply (f_equal length) in Hnil. rewrite length_insert in Hnil.
    by destruct (parsingStack p).
Qed.

Lemma classify_wf (p : Parser) (t : Token) (f : Flow) :
  wf p → classify p t = Ok f → flow_wf f.
Proof.
  intros Hwf Hc. destruct t as [name attr|name|data|data|target inst|data];
    simpl in Hc.
  - destruct (isStream name).
    + destruct (closeElement (startElement p name attr)) as [p2|] eqn:Hclose;
        [|done].
      injection Hc as <-. simpl.
      destruct (closeElement_cases _ _ (wf_startElement p name attr Hwf) Hclose)
        as [(Hidx & Hst & Hin & _)|[_ (Hidx & Hnx & Hin)]].
      * apply wf_done; [by rewrite Hidx, Hst | done].
      * repeat split; simpl; [done..|].
        intros Hb. by apply Hin.
    + by injection Hc as <-; apply wf_startElement.
  - destruct (isStream name); [by injection Hc as <-|].
    unfold endElement in Hc.
    destruct (index (parsingStack p) (parsingIndex p)) as [top|]; [|done].
    simpl in Hc.
    destruct (negb (String.eqb (ElementName top)
                               (xmlName (Space name) (Local name)))).
    + simpl in Hc. destruct Hwf as (Hidx & Hnx & Hin).
      destruct (Z.eqb_spec (parsingIndex p) rootElementIndex);
        injection Hc as <-; repeat split; simpl; try done.
    + destruct (closeElement p) as [p1|] eqn:Hclose; [|done]. simpl in Hc.
      destruct (closeElement_cases _ _ Hwf Hclose)
        as [(Hidx & Hst & Hin & _)|[Hpos Hwf1]].
      * rewrite Hidx in Hc. simpl in Hc. injection Hc as <-.
        apply wf_done; [by rewrite Hidx, Hst | done].
      * destruct (Z.eqb_spec (parsingIndex p1) rootElementIndex) as [Heq|_].
        { unfold rootElementIndex in Heq. lia. }
        by injection Hc as <-.
  - destruct (inElement p); simpl in Hc.
    + destruct (setElementText p data) as [p1|] eqn:Hset; [|done].
      injection Hc as <-. by eapply wf_setElementText.
    + by injection Hc as <-.
  - by injection Hc as <-.
  - by injection Hc as <-.
  - by injection Hc as <-.
Qed.

Lemma loop_wf (pend : list Read) (p : Parser) (t : Token) (r : Result) :
  wf p → loop pend p t = Ok r → wf r.2.
Proof.
  revert p t. induction pend as [|[t' off] pend IH]; intros p t Hwf Hloop;
    rewrite loop_unfold in Hloop;
    (destruct (tooLarge p); [by injection Hloop as <-|]);
    destruct (classify p t) as [f|] eqn:Hc; try done;
    pose proof (classify_wf p t f Hwf Hc) as Hf;
    destruct f as [r'|p1|p1]; simpl in Hloop, Hf;
    try (by injection Hloop as <-).
  eapply IH; [|exact Hloop]. by apply wf_set_dec.
Qed.

Lemma ParseElement_wf (p : Parser) (r : Result) :
  wf p → ParseElement p = Ok r → wf r.2.
Proof.
  intros Hwf Hparse. unfold ParseElement in Hparse.
  destruct (RawToken (dec p)) as [[t|e] d].
  - eapply loop_wf; [|exact Hparse]. by apply wf_set_dec.
  - by injection Hparse as <-.
Qed.

(** ** What one pass leaves untouched *)

Lemma closeElement_frame (p p' : Parser) :
  closeElement p = Ok p' →
  dec p' = dec p ∧ lastOffset p' = lastOffset p ∧
  maxStanzaSize p' = maxStanzaSize p ∧
  (parsingIndex p' = rootElementIndex → is_Some (nextElement p')).
Proof.
  unfold closeElement. intros Hclose.
  destruct (index (parsingStack p) (parsingIndex p)) as [e|]; [|done].
  destruct (slice_to (parsingStack p) (parsingIndex p)) as [st|]; [|done].
  simpl in Hclose.
  destruct (Z.eqb_spec (parsingIndex p - 1) rootElementIndex) as [Heq|Hne].
  - injection Hclose as <-. simpl. eauto.
  - destruct (index st (parsingIndex p - 1)) as [parent|]; [|done].
    injection Hclose as <-. simpl. repeat split; done.
Qed.

(** A pass never touches the decoder, the committed offset or the limit; it
    returns with the parser as it found it; and it leaves for [done] with
    an element to hand out, unless the token was a start tag stream:stream. *)
Lemma classify_frame (p : Parser) (t : Token) (f : Flow) :
  classify p t = Ok f →
  dec (flow_parser f) = dec p ∧
  lastOffset (flow_parser f) = lastOffset p ∧
  maxStanzaSize (flow_parser f) = maxStanzaSize p ∧
  match f with
  | Return r =>
      r.2 = p ∧ r.1.1 = XNil ∧
      (r.1.2 = None ∨ r.1.2 = Some ErrStreamClosedByPeer)
  | GotoDone p1 =>
      is_Some (nextElement p1) ∨ ∃ attr, t = StartElement streamTag attr
  | NextToken _ => True
  end.
Proof.
  intros Hc. destruct t as [name attr|name|data|data|target inst|data];
    simpl in Hc.
  - destruct (isStream name) eqn:Hname.
    + destruct (closeElement (startElement p name attr)) as [p2|] eqn:Hclose;
        [|done].
      injection Hc as <-. apply closeElement_frame in Hclose.
      destruct Hclose as (? & ? & ? & _). simpl in *.
      repeat split; try done.
      right. exists attr. apply isStream_true in Hname. by subst.
    + injection Hc as <-; simpl; eauto 10.
  - destruct (isStream name); [injection Hc as <-; simpl; eauto 10|].
    unfold endElement in Hc.
    destruct (index (parsingStack p) (parsingIndex p)) as [top|] eqn:Htop;
      [|done].
    simpl in Hc.
    destruct (negb (String.eqb (ElementName top)
                               (xmlName (Space name) (Local name)))).
    + simpl in Hc.
      destruct (Z.eqb_spec (parsingIndex p) rootElementIndex) as [Heq|_].
      { rewrite index_negative in Htop; [done|].
        rewrite Heq. unfold rootElementIndex. lia. }
      injection Hc as <-; simpl; eauto 10.
    + destruct (closeElement p) as [p1|] eqn:Hclose; [|done]. simpl in Hc.
      apply closeElement_frame in Hclose as (? & ? & ? & Hsome).
      destruct (Z.eqb_spec (parsingIndex p1) rootElementIndex) as [Heq|_];
        injection Hc as <-; simpl; repeat split; try done.
      left. by apply Hsome.
  - destruct (inElement p); simpl in Hc.
    + unfold setElementText in Hc.
      destruct (index (parsingStack p) (parsingIndex p)); [|done].
      injection Hc as <-; simpl; eauto 10.
    + injection Hc as <-; simpl; eauto 10.
  - injection Hc as <-; simpl; eauto 10.
  - injection Hc as <-; simpl; eauto 10.
  - injection Hc as <-; simpl; eauto 10.
Qed.

(** ** The reads a call goes through *)

(** The read at the foot of the loop is [RawToken]: on a parser whose
    decoder holds the reads [pend], the loop goes on as the code does after
    that read. *)
Lemma loop_RawToken (pend : list Read) (p : Parser) (t : Token) :
  pending (dec p) = pend →
  loop pend p t =
  if tooLarge p then Ok (XNil, Some ErrTooLargeStanza, p)
  else
    f ← classify p t;
    match f with
    | Return r => Ok r
    | GotoDone p1 => Ok (done p1)
    | NextToken p1 =>
        match RawToken (dec p1) with
        | (inr e, d) => Ok (XNil, Some e, set_dec p1 d)
        | (inl t', d) => loop (pending d) (set_dec p1 d) t'
        end
    end.
Proof.
  intros Hpend. rewrite loop_unfold. destruct (tooLarge p); [done|].
  destruct (classify p t) as [f|] eqn:Hc; [|done].
  destruct (classify_frame p t f Hc) as (Hdec & _).
  destruct f as [r|p1|p1]; try done. simpl in Hdec |- *.
  unfold RawToken. rewrite Hdec, Hpend. by destruct pend as [|[t' off] pend'].
Qed.

Lemma advance_frame (pre rest : list Read) (p p1 : Parser) :
  advance pre rest p = Some p1 →
  lastOffset p1 = lastOffset p ∧ maxStanzaSize p1 = maxStanzaSize p ∧
  err (dec p1) = err (dec p).
Proof.
  revert p. induction pre as [|[t off] pre IH]; intros p Hadv;
    cbn [advance] in Hadv.
  - by injection Hadv as <-.
  - destruct (tooLarge (set_dec p _)); [done|].
    destruct (classify (set_dec p _) t) as [[r|p2|p2]|] eqn:Hc; try done.
    destruct (classify_frame _ _ _ Hc) as (Hdec & Hlast & Hmax & _).
    simpl in Hdec, Hlast, Hmax.
    destruct (IH _ Hadv) as (-> & -> & ->). by rewrite Hdec.
Qed.

Lemma advance_wf (pre rest : list Read) (p p1 : Parser) :
  wf p → advance pre rest p = Some p1 → wf p1.
Proof.
  revert p. induction pre as [|[t off] pre IH]; intros p Hwf Hadv;
    cbn [advance] in Hadv.
  - by injection Hadv as <-.
  - destruct (tooLarge (set_dec p _)); [done|].
    destruct (classify (set_dec p _) t) as [[r|p2|p2]|] eqn:Hc; try done.
    apply (IH p2); [|done].
    by apply (classify_wf _ _ _ (wf_set_dec p _ Hwf) Hc).
Qed.

(** Once the loop has gone through [pre], it stands at the next read. *)
Lemma loop_advance (pre : list Read) (t : Token) (off : Z) (rest : list Read) :
  ∀ (p p' p1 : Parser) (t0 : Token),
    tooLarge p = false → classify p t0 = Ok (NextToken p') →
    advance pre ((t, off) :: rest) p' = Some p1 →
    loop (pre ++ (t, off) :: rest) p t0
    = loop rest (set_dec p1 (mkDecoder rest off (err (dec p1)))) t.
Proof.
  induction pre as [|[t1 o1] pre IH]; intros p p' p1 t0 Hsize Hc Hadv;
    rewrite loop_unfold, Hsize, Hc; cbn [advance] in Hadv;
    cbn [mbind exec_bind app].
  - by injection Hadv as <-.
  - destruct (tooLarge (set_dec p' _)) eqn:Hsize1; [done|].
    destruct (classify (set_dec p' _) t1) as [[r|p2|p2]|] eqn:Hc1; try done.
    by apply (IH _ p2).
Qed.

Lemma ParseElement_advance (pre : list Read) (t : Token) (off : Z)
      (rest : list Read) (p p1 : Parser) :
  pending (dec p) = pre ++ (t, off) :: rest →
  advance pre ((t, off) :: rest) p = Some p1 →
  ParseElement p
  = loop rest (set_dec p1 (mkDecoder rest off (err (dec p1)))) t.
Proof.
  intros Hpend Hadv. destruct pre as [|[t0 o0] pre];
    cbn [advance app] in Hpend, Hadv.
  - injection Hadv as <-. by apply ParseElement_read.
  - rewrite (ParseElement_read p t0 o0 _ Hpend).
    destruct (tooLarge (set_dec p _)) eqn:Hsize; [done|].
    destruct (classify (set_dec p _) t0) as [[r|p2|p2]|] eqn:Hc; try done.
    by apply (loop_advance pre t off rest _ p2).
Qed.

(** The code's names are the qualified names of the data model. *)
Lemma xmlName_qualifiedName (n : Name) :
  xmlName (Space n) (Local n) = qualifiedName n.
Proof. unfold xmlName, qualifiedName. by destruct (Space n). Qed.

Lemma qualified_labelled (attr : list Attr) : qualified attr = labelled attr.
Proof.
  unfold qualified, labelled. apply map_ext. intros a.
  by rewrite xmlName_qualifiedName.
Qed.

(** ** The stream-opening tag *)

(** Over comments and directives that pass the size check, the loop goes
    on with the parser as it was, the decoder apart. *)
Lemma advance_passedOver (pre rest : list Read) (p : Parser) :
  Forall (λ r, passedOver r.1 = true) pre →
  fits (maxStanzaSize p) (lastOffset p) pre →
  ∃ d, advance pre rest p = Some (set_dec p d) ∧ err d = err (dec p).
Proof.
  revert p. induction pre as [|[t off] pre IH]; intros p Hpre Hfits.
  - exists (dec p). by destruct p.
  - apply Forall_cons in Hpre as [Ht Hpre].
    apply Forall_cons in Hfits as [Hoff Hfits]. simpl in Ht, Hoff.
    destruct (IH (set_dec p (mkDecoder (pre ++ rest) off (err (dec p))))
                 Hpre Hfits) as (d & Hadv & Herr).
    exists d. split; [|done]. cbn [advance]. unfold tooLarge. simpl.
    rewrite Hoff. by destruct t.
Qed.

(** C3.  A start tag stream:stream that [ParseElement] reads at the top
    level (no element open), first in the call or after comments and
    directives, ends the call at once, whatever input follows: the call
    returns the element stream:stream, with no children and an empty text,
    and commits the offset.  Its attributes are those of the tag under their
    qualified names (namespace:local, or local alone), kept in their order
    when the names are distinct. *)
Theorem stream_open_completes (p : Parser) (pre rest : list Read)
        (attr : list Attr) (off : Z) :
  wf p → parsingIndex p = rootElementIndex →
  pending (dec p) = pre ++ (StartElement (mkName "stream" "stream") attr, off)
                        :: rest →
  Forall (λ r, passedOver r.1 = true) pre →
  fits (maxStanzaSize p) (lastOffset p)
       (pre ++ [(StartElement (mkName "stream" "stream") attr, off)]) →
  ParseElement p
  = Ok (XPtr (Some (streamOpen attr)), None,
        mkParser (mkDecoder rest off (err (dec p))) None rootElementIndex []
                 false off (maxStanzaSize p))
  ∧ ElementName (streamOpen attr) = "stream:stream"
  ∧ Elements (streamOpen attr) = []
  ∧ Text (streamOpen attr) = ""
  ∧ (NoDup (Label <$> labelled attr) →
     Attributes (streamOpen attr) = labelled attr).
Proof.
  intros Hwf Hroot Hpend Hpre Hfits.
  apply Forall_app in Hfits as [Hfits Hoff].
  apply Forall_cons in Hoff as [Hoff _]. simpl in Hoff.
  destruct (advance_passedOver pre
              ((StartElement (mkName "stream" "stream") attr, off) :: rest)
              p Hpre Hfits) as (d & Hadv & Herr).
  destruct (wf_root p Hwf Hroot) as (Hstack & Hnext & Hin).
  repeat split.
  - rewrite (ParseElement_advance _ _ _ _ _ _ Hpend Hadv), loop_unfold.
    unfold tooLarge. simpl. rewrite Hoff, Herr.
    destruct p as [d0 nx idx st b lo mx]. simpl in *. subst. reflexivity.
  - intros Hnd. simpl. rewrite qualified_labelled. by apply attributeSet_NoDup.
Qed.

Lemma stream_open_completes_witness :
  ParseElement (NewParser streamOpening 50)
  = Ok (XPtr (Some (mkElement "stream:stream" [mkAttribute "to" "x"] "" [])),
        None, mkParser (mkDecoder [] 30 EOF) None (-1) [] false 30 50).
Proof.
  apply (stream_open_completes (NewParser streamOpening 50)
           [(Comment "x", 8)] [] [mkAttr (mkName "" "to") "x"] 30).
  - apply wf_NewParser.
  - reflexivity.
  - reflexivity.
  - by repeat constructor.
  - by repeat constructor.
Defined.

(** C10 (the code departs from it).  A start tag stream:stream that
    [ParseElement] reads while an element is open is closed at once, and the
    new element becomes the last child of the enclosing element, which stays
    in progress on the stack.  The call then leaves through [done]: it hands
    back the nil pointer [nextElement] converted to [XElement], which is not
    the nil interface, and it commits the offset. *)
Theorem nested_stream_open (p p1 : Parser) (pre rest : list Read)
        (attr : list Attr) (off : Z) :
  wf p →
  pending (dec p) = pre ++ (StartElement (mkName "stream" "stream") attr, off)
                        :: rest →
  advance pre ((StartElement (mkName "stream" "stream") attr, off) :: rest) p
  = Some p1 →
  0 ≤ parsingIndex p1 →
  exceeds (maxStanzaSize p) (lastOffset p) off = false →
  ∃ s parent,
    parsingStack p1 = s ++ [parent] ∧
    ParseElement p
    = Ok (XPtr None, None,
          mkParser (mkDecoder rest off (err (dec p))) None (parsingIndex p1)
                   (s ++ [AppendElement parent (streamOpen attr)]) false
                   off (maxStanzaSize p)).
Proof.
  intros Hwf Hpend Hadv Hpos Hsize.
  pose proof (advance_wf _ _ _ _ Hwf Hadv) as Hwf1.
  destruct (advance_frame _ _ _ _ Hadv) as (Hlast & Hmax & Herr).
  destruct (wf_open p1 Hwf1 Hpos) as (s & parent & Hstack & Hidx).
  destruct Hwf1 as (_ & Hnext & _).
  exists s, parent. split; [done|].
  rewrite (ParseElement_advance _ _ _ _ _ _ Hpend Hadv), loop_unfold.
  unfold tooLarge. simpl. rewrite Hmax, Hlast, Hsize, Herr.
  destruct p1 as [d nx idx st b lo mx]. simpl in *. subst.
  unfold startElement. simpl.
  replace (Z.of_nat (length s) + 1)
    with (Z.of_nat (length (s ++ [parent])))
    by (rewrite length_app; simpl; lia).
  by rewrite closeElement_nested.
Qed.

Lemma nested_stream_open_witness :
  ∃ s parent,
    [mkElement "a" [] "" []] = s ++ [parent] ∧
    ParseElement (NewParser streamInsideA 0)
    = Ok (XPtr None, None,
          mkParser (mkDecoder [] 18 EOF) None 0
                   (s ++ [AppendElement parent (streamOpen [])]) false 18 0).
Proof.
  apply (nested_stream_open (NewParser streamInsideA 0)
           (mkParser (mkDecoder [(StartElement streamTag [], 18)] 3 EOF)
                     None 0 [mkElement "a" [] "" []] true 0 0)
           [(StartElement (tag "a") [], 3)] [] [] 18);
    reflexivity || apply wf_NewParser.
Defined.

(** ** The stream-closing tag *)

(** C4.  An end tag stream:stream that [ParseElement] reads, first in the
    call or after reads the loop has gone through, and that passes the size
    check, ends the call with [ErrStreamClosedByPeer], whatever the stack
    holds; the parser is left as it stood before that token. *)
Theorem stream_close_by_peer (p p1 : Parser) (pre rest : list Read)
        (name : Name) (off : Z) :
  pending (dec p) = pre ++ (EndElement name, off) :: rest →
  advance pre ((EndElement name, off) :: rest) p = Some p1 →
  isStream name = true →
  exceeds (maxStanzaSize p) (lastOffset p) off = false →
  ParseElement p
  = Ok (XNil, Some ErrStreamClosedByPeer,
        set_dec p1 (mkDecoder rest off (err (dec p)))).
Proof.
  intros Hpend Hadv Hname Hsize.
  destruct (advance_frame _ _ _ _ Hadv) as (Hlast & Hmax & Herr).
  rewrite (ParseElement_advance _ _ _ _ _ _ Hpend Hadv), loop_unfold.
  unfold tooLarge. simpl. rewrite Hmax, Hlast, Hsize, Hname, Herr. done.
Qed.

Lemma stream_close_by_peer_witness :
  ParseElement (NewParser streamClosing 100)
  = Ok (XNil, Some ErrStreamClosedByPeer,
        mkParser (mkDecoder [] 27 EOF) None 0 [mkElement "a" [] "" []]
                 true 0 100).
Proof.
  apply (stream_close_by_peer (NewParser streamClosing 100)
           (mkParser (mkDecoder [(EndElement (mkName "stream" "stream"), 27)]
                                11 EOF)
                     None 0 [mkElement "a" [] "" []] true 0 100)
           [(StartElement (mkName "" "a") [], 3); (Comment "x", 11)] []
           (mkName "stream" "stream") 27); reflexivity.
Defined.

(** ** Where the parser panics *)

Lemma closeElement_ok (p : Parser) :
  wf p → 0 ≤ parsingIndex p → ∃ p', closeElement p = Ok p'.
Proof.
  intros Hwf Hpos. destruct (wf_open p Hwf Hpos) as (s & e & Hstack & Hidx).
  destruct p as [d nx idx st b lo mx]. simpl in *. subst.
  destruct s as [|parent s _] using rev_ind.
  - cbn [length app Z.of_nat]. rewrite closeElement_root. eauto.
  - rewrite closeElement_nested. eauto.
Qed.


(** ** The mismatched end tag, and the end tag at the top level *)

(** C1 (the code departs from it).  On [<a><b></a>] the helper [endElement]
    reports the mismatch, and [ParseElement] drops that error and reads on:
    the call ends with the decoder's end-of-input error, both elements still
    open; and when [</b></a>] follows, the call returns the element [a] with
    the child [b] as a success. *)
Theorem mismatched_end_tag_dropped :
  endElement (mkParser (mkDecoder [] 10 EOF) None 1
                       [mkElement "a" [] "" []; mkElement "b" [] "" []]
                       true 0 0) (tag "a")
  = Ok (mkParser (mkDecoder [] 10 EOF) None 1
                 [mkElement "a" [] "" []; mkElement "b" [] "" []] true 0 0,
        Some (ErrUnexpectedEnd "a"))
  ∧ ParseElement (NewParser mismatched 0)
    = Ok (XNil, Some (DecoderError "EOF"),
          mkParser (mkDecoder [] 10 EOF) None 1
                   [mkElement "a" [] "" []; mkElement "b" [] "" []] true 0 0)
  ∧ ParseElement (NewParser mismatchedThenClosed 0)
    = Ok (XPtr (Some (mkElement "a" [] "" [mkElement "b" [] "" []])), None,
          mkParser (mkDecoder [] 18 EOF) None (-1) [] false 18 0).
Proof. repeat split; reflexivity. Qed.

(** C8 (the code departs from it).  An end tag read while no element is open
    makes the call panic, [endElement] indexing the empty stack at -1;
    character data read there does not: the call returns neither an element
    nor an error. *)
Theorem end_tag_at_root_panics :
  ParseElement (NewParser (mkDecoder [(EndElement (tag "a"), 4)] 0 EOF) 0)
  = Panic
  ∧ ParseElement (NewParser (mkDecoder [(CharData " ", 1)] 0 EOF) 0)
    = Ok (XNil, None, NewParser (mkDecoder [] 1 EOF) 0).
Proof. split; reflexivity. Qed.

(** ** The committed offset *)

(** C9 (the code departs from it).  On [<a><stream:stream>] the call leaves
    through [done] with no element to hand out: nothing was committed before
    it, and it commits the offset 18; what it returns is the nil pointer
    converted to [XElement], not the nil interface.  The bytes a unit has
    consumed so stop counting against its size budget: over the 52 bytes of
    [<a><stream:stream><stream:stream><stream:stream></a>], with a limit of
    20, three such calls are followed by one that hands out [a]. *)
Theorem lastOffset_moved_without_element :
  lastOffset (NewParser streamInsideA 0) = 0
  ∧ ParseElement (NewParser streamInsideA 0)
    = Ok (XPtr None, None,
          mkParser (mkDecoder [] 18 EOF) None 0
                   [mkElement "a" [] "" [mkElement "stream:stream" [] "" []]]
                   false 18 0)
  ∧ results 4 (NewParser streamsInsideA 20)
    = [Ok (XPtr None, None); Ok (XPtr None, None); Ok (XPtr None, None);
       Ok (XPtr (Some (mkElement "a" [] ""
                                 [mkElement "stream:stream" [] "" [];
                                  mkElement "stream:stream" [] "" [];
                                  mkElement "stream:stream" [] "" []])),
           None)].
Proof. repeat split; reflexivity. Qed.

(** ** The size limit *)

Lemma sub64_exact (a b : Z) :
  0 ≤ a < 2 ^ 63 → 0 ≤ b < 2 ^ 63 → sub64 a b = a - b.
Proof.
  intros Ha Hb. unfold sub64, wrap64.
  rewrite Z.mod_small by lia. lia.
Qed.

Lemma exceeds_spec (maxSize last off : Z) :
  0 ≤ last < 2 ^ 63 → 0 ≤ off < 2 ^ 63 →
  exceeds maxSize last off = true ↔ 0 < maxSize ∧ maxSize < off - last.
Proof.
  intros Hlast Hoff. unfold exceeds.
  rewrite sub64_exact, andb_true_iff, !Z.ltb_lt by done. done.
Qed.

Lemma exceeds_disabled (maxSize last off : Z) :
  maxSize ≤ 0 → exceeds maxSize last off = false.
Proof.
  intros Hmax. unfold exceeds.
  destruct (Z.ltb_spec 0 maxSize); [lia | done].
Qed.

Lemma removelast_snoc {A} (l : list A) (a : A) : removelast (l ++ [a]) = l.
Proof. apply removelast_last. Qed.

(** The reads a run of the loop uses up: all but the last pass the size
    check, and the run ends with [ErrTooLargeStanza] exactly when the last
    one does not. *)
Lemma loop_sizes (pend : list Read) (p : Parser) (t : Token)
      (x : XElement) (e : option error) (p' : Parser) :
  pending (dec p) = pend →
  loop pend p t = Ok (x, e, p') →
  ∃ pre r,
    (t, offset (dec p)) :: pend = pre ++ r :: pending (dec p') ∧
    fits (maxStanzaSize p) (lastOffset p) pre ∧
    (e = Some ErrTooLargeStanza ↔
     exceeds (maxStanzaSize p) (lastOffset p) r.2 = true).
Proof.
  revert p t. induction pend as [|[t' off] pend IH]; intros p t Hpend Hloop;
    rewrite loop_unfold in Hloop;
    destruct (tooLarge p) eqn:Hsize; cbv [tooLarge InputOffset] in Hsize;
    try (injection Hloop as <- <- <-; exists [], (t, offset (dec p));
         rewrite Hpend; split; [done|]; split; [apply Forall_nil_2|];
         cbn [snd]; by rewrite Hsize);
    destruct (classify p t) as [f|] eqn:Hc; try done;
    destruct (classify_frame p t f Hc) as (Hdec & Hlast & Hmax & Hf);
    destruct f as [r|p1|p1]; simpl in Hloop, Hdec, Hlast, Hmax, Hf.
  1,4: injection Hloop as ->; simpl in Hf; destruct Hf as (-> & _ & He);
       exists [], (t, offset (dec p)); rewrite Hpend;
       split; [done|]; split; [apply Forall_nil_2|];
       cbn [snd]; rewrite Hsize; by destruct He as [->| ->].
  1,3: injection Hloop as <- <- <-; exists [], (t, offset (dec p)); simpl;
       rewrite Hdec, Hpend; split; [done|]; split; [apply Forall_nil_2|];
       by rewrite Hsize.
  - injection Hloop as <- <- <-. exists [], (t, offset (dec p)). simpl.
    split; [done|]. split; [apply Forall_nil_2|]. by rewrite Hsize.
  - apply IH in Hloop as (pre & r & Hpre & Hfits & He); [|done].
    simpl in Hpre, Hfits, He. rewrite Hlast, Hmax in Hfits, He.
    exists ((t, offset (dec p)) :: pre), r. simpl. rewrite Hpre.
    split; [done|]. split; [|done].
    apply Forall_cons. split; [exact Hsize | done].
Qed.

Lemma ParseElement_sizes (p : Parser) (x : XElement)
      (e : option error) (p' : Parser) :
  ParseElement p = Ok (x, e, p') →
  ∃ reads,
    pending (dec p) = reads ++ pending (dec p') ∧
    fits (maxStanzaSize p) (lastOffset p) (removelast reads) ∧
    (e = Some ErrTooLargeStanza ↔
     ∃ r, last reads = Some r ∧
          exceeds (maxStanzaSize p) (lastOffset p) r.2 = true).
Proof.
  intros Hparse. unfold ParseElement, RawToken in Hparse.
  destruct (pending (dec p)) as [|[t off] rest] eqn:Hpend.
  - injection Hparse as <- <- <-. exists []. simpl.
    split; [done|]. split; [constructor|].
    split; [done | by intros (r & ? & _)].
  - destruct (loop_sizes _ _ _ _ _ _ eq_refl Hparse)
      as (pre & r & Hpre & Hfits & He).
    simpl in Hpre, Hfits, He. exists (pre ++ [r]).
    rewrite <- app_assoc. split; [done|].
    rewrite removelast_snoc, last_snoc. split; [done|].
    rewrite He. split; [by exists r|by intros (? & [= <-] & ?)].
Qed.

(** ** The drive loop is the loop over all the reads *)

Lemma drive_S (fuel : nat) (p : Parser) :
  drive (S fuel) p = retry fuel (ParseElement p).
Proof.
  simpl. by destruct (ParseElement p) as [[[[|ptr] [e|]] p']|].
Qed.

Lemma drive_pump_loop (pend : list Read) :
  (∀ p fuel, pending (dec p) = pend → (length pend < fuel)%nat →
             drive fuel p = pump pend p)
  ∧ (∀ p t fuel, pending (dec p) = pend → (length pend < fuel)%nat →
                 retry fuel (loop pend p t) = pumpBody (pump pend) p t).
Proof.
  induction pend as [|[t' off] pend [IHdrive IHloop]].
  - assert (Hdrive : ∀ p fuel, pending (dec p) = [] → (0 < fuel)%nat →
                               drive fuel p = pump [] p).
    { intros p [|fuel] Hp Hfuel; [lia|].
      by rewrite drive_S, ParseElement_eof. }
    split; [exact Hdrive|].
    intros p t fuel Hp Hfuel. rewrite loop_unfold. unfold pumpBody.
    destruct (tooLarge p); [done|].
    destruct (classify p t) as [f|] eqn:Hc; [|done].
    destruct (classify_frame p t f Hc) as (Hdec & _ & _ & Hf).
    destruct f as [[[x e] p1]|p1|p1]; simpl in *.
    + destruct Hf as (-> & -> & _). destruct e; [done|].
      by apply Hdrive.
    + done.
    + done.
  - assert (Hdrive : ∀ p fuel, pending (dec p) = (t', off) :: pend →
                               (length ((t', off) :: pend) < fuel)%nat →
                               drive fuel p = pump ((t', off) :: pend) p).
    { intros p [|fuel] Hp Hfuel; [simpl in Hfuel; lia|].
      rewrite drive_S, (ParseElement_read p t' off pend Hp).
      rewrite IHloop; [reflexivity | reflexivity | simpl in Hfuel; lia]. }
    split; [exact Hdrive|].
    intros p t fuel Hp Hfuel. rewrite loop_unfold. unfold pumpBody.
    destruct (tooLarge p); [done|].
    destruct (classify p t) as [f|] eqn:Hc; [|done].
    destruct (classify_frame p t f Hc) as (Hdec & _ & _ & Hf).
    destruct f as [[[x e] p1]|p1|p1]; simpl in Hdec, Hf |- *.
    + destruct Hf as (-> & -> & _). destruct e; [done|].
      by apply Hdrive.
    + done.
    + rewrite IHloop; [reflexivity | by simpl | simpl in Hfuel; lia].
Qed.

Lemma ParseStanza_pump (p : Parser) :
  ParseStanza p = pump (pending (dec p)) p.
Proof.
  unfold ParseStanza.
  destruct (drive_pump_loop (pending (dec p))) as [Hdrive _].
  apply Hdrive; [done | lia].
Qed.

(** ** One token of a driven parser *)

Lemma seek_nil (d : Decoder) : seek d [] (pending d) = d.
Proof. by destruct d. Qed.

Lemma seek_app (d : Decoder) (r1 r2 mid rest : list Read) :
  seek (seek d r1 mid) r2 rest = seek d (r1 ++ r2) rest.
Proof.
  unfold seek. simpl. rewrite last_app. by destruct (last r2).
Qed.

Lemma seek_one (d : Decoder) (t : Token) (off : Z) (rest : list Read) :
  mkDecoder rest off (err d) = seek d [(t, off)] rest.
Proof. reflexivity. Qed.

Lemma pump_start d nx i st b lo mx name attr off pend :
  isStream name = false → exceeds mx lo off = false →
  pump ((StartElement name attr, off) :: pend) (mkParser d nx i st b lo mx)
  = pump pend
      (mkParser (mkDecoder pend off (err d)) nx (i + 1)
                (st ++ [mkElement (xmlName (Space name) (Local name))
                                  (attributeSet (qualified attr)) "" []])
                true lo mx).
Proof.
  intros Hname Hsize. simpl. unfold pumpBody, tooLarge. simpl.
  by rewrite Hsize, Hname.
Qed.

Lemma pump_text_in d nx (s : list Element) par lo mx data off pend :
  exceeds mx lo off = false →
  pump ((CharData data, off) :: pend)
       (mkParser d nx (Z.of_nat (length s)) (s ++ [par]) true lo mx)
  = pump pend
      (mkParser (mkDecoder pend off (err d)) nx (Z.of_nat (length s))
                (s ++ [setText par data]) true lo mx).
Proof.
  intros Hsize. cbn [pump]. unfold pumpBody, tooLarge, set_dec.
  cbn [dec lastOffset maxStanzaSize InputOffset offset nextElement
       parsingIndex parsingStack inElement err].
  rewrite Hsize. cbn [classify inElement negb].
  by rewrite setElementText_top.
Qed.

Lemma pump_text_out d i st lo mx data off pend :
  exceeds mx lo off = false →
  pump ((CharData data, off) :: pend) (mkParser d None i st false lo mx)
  = pump pend (mkParser (mkDecoder pend off (err d)) None i st false lo mx).
Proof.
  intros Hsize. simpl. unfold pumpBody, tooLarge. simpl. by rewrite Hsize.
Qed.

Lemma pump_end_nested d nx (s : list Element) par e b lo mx name off pend :
  isStream name = false → exceeds mx lo off = false →
  ElementName e = xmlName (Space name) (Local name) →
  pump ((EndElement name, off) :: pend)
       (mkParser d nx (Z.of_nat (length (s ++ [par])))
                 ((s ++ [par]) ++ [e]) b lo mx)
  = pump pend
      (mkParser (mkDecoder pend off (err d)) nx (Z.of_nat (length s))
                (s ++ [AppendElement par e]) false lo mx).
Proof.
  intros Hname Hsize He. cbn [pump]. unfold pumpBody, tooLarge, set_dec.
  cbn [dec lastOffset maxStanzaSize InputOffset offset nextElement
       parsingIndex parsingStack inElement err].
  rewrite Hsize. cbn [classify]. rewrite Hname. unfold endElement.
  cbn [parsingIndex parsingStack].
  rewrite index_top. cbn [mbind exec_bind].
  rewrite He, String.eqb_refl. cbn [negb].
  rewrite closeElement_nested. cbn [mbind exec_bind fst parsingIndex].
  destruct (Z.eqb_spec (Z.of_nat (length s)) rootElementIndex) as [Heq|_];
    [|done].
  unfold rootElementIndex in Heq. lia.
Qed.

Lemma pump_end_root d e b lo mx name off pend :
  isStream name = false → exceeds mx lo off = false →
  ElementName e = xmlName (Space name) (Local name) →
  pump ((EndElement name, off) :: pend) (mkParser d None 0 [e] b lo mx)
  = Ok (XPtr (Some e), None,
        mkParser (mkDecoder pend off (err d)) None (-1) [] false off mx).
Proof.
  intros Hname Hsize He. cbn [pump]. unfold pumpBody, tooLarge, set_dec.
  cbn [dec lastOffset maxStanzaSize InputOffset offset nextElement
       parsingIndex parsingStack inElement err].
  rewrite Hsize. cbn [classify]. rewrite Hname. unfold endElement.
  cbn [parsingIndex parsingStack].
  change (index [e] 0) with (Ok e). cbn [mbind exec_bind].
  rewrite He, String.eqb_refl. cbn [negb].
  by rewrite closeElement_root.
Qed.

(** ** A well-formed body, token by token *)

Lemma nsize_pos (n : Node) : (0 < nsize n)%nat.
Proof. destruct n; simpl; lia. Qed.

Lemma absorbBody_nil (par : Element) (b : bool) : absorbBody par b [] = par.
Proof.
  destruct par. unfold absorbBody. simpl. rewrite app_nil_r. by destruct b.
Qed.

Lemma absorbBody_text (par : Element) (b : bool) (data : string)
      (body : list Node) :
  absorbBody (if b then setText par data else par) b body
  = absorbBody par b (NText data :: body).
Proof. by destruct par, b. Qed.

Lemma absorbBody_elem (par : Element) (b : bool) name attr bd
      (body : list Node) (e : Element) :
  toElement (NElem name attr bd) = Some e →
  absorbBody (AppendElement par e) false body
  = absorbBody par b (NElem name attr bd :: body).
Proof.
  intros He. destruct par as [n a t c]. unfold absorbBody.
  cbn [omap list_omap]. rewrite He. simpl.
  rewrite <- app_assoc. by destruct b.
Qed.

Lemma pump_body (k : nat) :
  ∀ body, (lsize body ≤ k)%nat → wellFormedAll body →
  ∀ reads rest d (s : list Element) par b lo mx,
    pending d = reads ++ rest →
    reads.*1 = flat_map tokens body →
    fits mx lo reads →
    pump (reads ++ rest)
         (mkParser d None (Z.of_nat (length s)) (s ++ [par]) b lo mx)
    = pump rest
        (mkParser (seek d reads rest) None (Z.of_nat (length s))
                  (s ++ [absorbBody par b body]) (untouched b body) lo mx).
Proof.
  induction k as [|k IH]; intros body Hsize Hwf reads rest d s par b lo mx
    Hd Hreads Hfits.
  { destruct body as [|c body]; [|pose proof (nsize_pos c); simpl in Hsize; lia].
    apply fmap_nil_inv in Hreads. subst reads. simpl in Hd. subst rest.
    rewrite seek_nil, absorbBody_nil. unfold untouched. simpl.
    by rewrite andb_true_r. }
  destruct body as [|[data|name attr bd] body].
  - apply fmap_nil_inv in Hreads. subst reads. simpl in Hd. subst rest.
    rewrite seek_nil, absorbBody_nil. unfold untouched. simpl.
    by rewrite andb_true_r.
  - simpl in Hreads.
    apply fmap_cons_inv in Hreads as ([t off] & reads' & Ht & Hreads' & ->).
    simpl in Ht. subst t.
    apply Forall_cons in Hfits as [Hoff Hfits]. simpl in Hoff.
    destruct Hwf as [_ Hwf]. simpl in Hsize.
    assert (Hstep :
      pump (((CharData data, off) :: reads') ++ rest)
           (mkParser d None (Z.of_nat (length s)) (s ++ [par]) b lo mx)
      = pump (reads' ++ rest)
          (mkParser (seek d [(CharData data, off)] (reads' ++ rest)) None
                    (Z.of_nat (length s))
                    (s ++ [if b then setText par data else par]) b lo mx)).
    { destruct b; [by apply pump_text_in | by apply pump_text_out]. }
    rewrite Hstep, (IH body); [|lia|done|done|done|done].
    rewrite seek_app, absorbBody_text. simpl.
    unfold untouched. by simpl.
  - simpl in Hreads. destruct Hwf as [(Hname & Hnd & Hwfbd) Hwf].
    simpl in Hsize. fold (lsize bd) in Hsize. fold (lsize body) in Hsize.
    apply fmap_cons_inv in Hreads as ([t o0] & reads1 & Ht & Hreads1 & ->).
    simpl in Ht. subst t. symmetry in Hreads1.
    apply fmap_app_inv in Hreads1 as (reads2 & reads' & Hreads2 & Hreads' & ->).
    symmetry in Hreads2.
    apply fmap_app_inv in Hreads2 as (readsBd & readsEnd & HBd & HEnd & ->).
    symmetry in HEnd.
    apply fmap_cons_inv in HEnd as ([t oE] & nil' & Ht & Hnil & ->).
    simpl in Ht. subst t. symmetry in Hnil. apply fmap_nil_inv in Hnil.
    subst nil'.
    apply Forall_cons in Hfits as [Ho0 Hfits]. simpl in Ho0.
    apply Forall_app in Hfits as [Hfits Hfits'].
    apply Forall_app in Hfits as [HfitsBd HfitsEnd].
    apply Forall_cons in HfitsEnd as [HoE _]. simpl in HoE.
    replace (((StartElement name attr, o0)
                :: (readsBd ++ [(EndElement name, oE)]) ++ reads') ++ rest)
      with ((StartElement name attr, o0)
              :: readsBd ++ (EndElement name, oE) :: reads' ++ rest)
      by (simpl; by rewrite <- !app_assoc).
    rewrite pump_start by done.
    replace (Z.of_nat (length s) + 1) with (Z.of_nat (length (s ++ [par])))
      by (rewrite length_app; simpl; lia).
    rewrite (IH bd); [|lia|done|done|done|done].
    rewrite pump_end_nested; [|done|done|done].
    rewrite (IH body); [|lia|done|done|done|done].
    rewrite (seek_one (seek _ _ _) (EndElement name) oE).
    rewrite (seek_one d (StartElement name attr) o0).
    rewrite !seek_app.
    replace ([(StartElement name attr, o0)] ++ readsBd)
      with ((StartElement name attr, o0) :: readsBd) by done.
    rewrite <- !app_assoc. simpl.
    rewrite (absorbBody_elem par b name attr bd body); [by destruct b|].
    simpl. unfold absorbBody. simpl.
    by rewrite attributeSet_NoDup.
Qed.

(** ** A well-formed unit at the top level *)

Lemma pump_element name attr body (reads rest : list Read) d lo mx :
  wellFormed (NElem name attr body) →
  pending d = reads ++ rest →
  reads.*1 = tokens (NElem name attr body) →
  fits mx lo reads →
  ∃ off,
    last reads = Some (EndElement name, off) ∧
    pump (reads ++ rest) (mkParser d None (-1) [] false lo mx)
    = Ok (XPtr (toElement (NElem name attr body)), None,
          mkParser (mkDecoder rest off (err d)) None (-1) [] false off mx).
Proof.
  intros (Hname & Hnd & Hwf) Hd Hreads Hfits. simpl in Hreads.
  apply fmap_cons_inv in Hreads as ([t o0] & reads1 & Ht & Hreads1 & ->).
  simpl in Ht. subst t. symmetry in Hreads1.
  apply fmap_app_inv in Hreads1 as (readsBd & readsEnd & HBd & HEnd & ->).
  symmetry in HEnd.
  apply fmap_cons_inv in HEnd as ([t oE] & nil' & Ht & Hnil & ->).
  simpl in Ht. subst t. symmetry in Hnil. apply fmap_nil_inv in Hnil.
  subst nil'.
  apply Forall_cons in Hfits as [Ho0 Hfits]. simpl in Ho0.
  apply Forall_app in Hfits as [HfitsBd HfitsEnd].
  apply Forall_cons in HfitsEnd as [HoE _]. simpl in HoE.
  exists oE. split.
  { by rewrite app_comm_cons, last_snoc. }
  replace (((StartElement name attr, o0)
              :: readsBd ++ [(EndElement name, oE)]) ++ rest)
    with ((StartElement name attr, o0)
            :: readsBd ++ (EndElement name, oE) :: rest)
    by (simpl; by rewrite <- !app_assoc).
  rewrite pump_start by done.
  change (-1 + 1) with (Z.of_nat (@length Element [])).
  rewrite (pump_body (lsize body) body); [|lia|done|done|done|done].
  cbn [app length Z.of_nat].
  rewrite pump_end_root; [|done|done|done].
  simpl. unfold absorbBody. simpl. by rewrite attributeSet_NoDup.
Qed.

(** A driven parser at the top level, over the reads of a well-formed unit
    that fit the size limit: it hands out the element of the unit, commits
    the offset of the end tag and is at the top level again. *)
Lemma ParseStanza_element (p : Parser) name attr body (reads rest : list Read) :
  wf p → parsingIndex p = rootElementIndex →
  wellFormed (NElem name attr body) →
  pending (dec p) = reads ++ rest →
  reads.*1 = tokens (NElem name attr body) →
  fits (maxStanzaSize p) (lastOffset p) reads →
  ∃ off,
    last reads = Some (EndElement name, off) ∧
    ParseStanza p
    = Ok (XPtr (toElement (NElem name attr body)), None,
          mkParser (mkDecoder rest off (err (dec p))) None rootElementIndex []
                   false off (maxStanzaSize p)).
Proof.
  intros Hwf Hroot Hn Hpend Hreads Hfits.
  destruct (wf_root p Hwf Hroot) as (Hstack & Hnext & Hin).
  rewrite ParseStanza_pump, Hpend.
  destruct p as [d nx idx st b lo mx]. simpl in *. subst.
  by apply pump_element.
Qed.

(** ** The size limit, stated *)

(** C2.  The size check stands at the head of the loop, on each token the
    call has read and before the token is classified: a token read at an
    offset that exceeds the limit ends the call with [ErrTooLargeStanza]
    whatever the token is, first in the call or after reads the loop has
    gone through.  Of the reads a call uses up, all but the last pass the
    check, and the call returns [ErrTooLargeStanza] exactly when the last
    one does not: when the decoder's offset after that token, less the
    offset committed when the call began, exceeds a positive limit; on
    [int64] offsets that difference is the plain one.  The check is made on
    tokens only: a read that fails ends the call with the decoder's error,
    wherever the decoder then stands.  With a limit of zero (or below) the
    check never fires, and every well-formed element is handed out whatever
    its size. *)
Theorem size_limit_check :
  (∀ p p1 pre t off rest,
     pending (dec p) = pre ++ (t, off) :: rest →
     advance pre ((t, off) :: rest) p = Some p1 →
     exceeds (maxStanzaSize p) (lastOffset p) off = true →
     ParseElement p
     = Ok (XNil, Some ErrTooLargeStanza,
           set_dec p1 (mkDecoder rest off (err (dec p)))))
  ∧ (∀ p x e p',
       ParseElement p = Ok (x, e, p') →
       ∃ reads,
         pending (dec p) = reads ++ pending (dec p') ∧
         fits (maxStanzaSize p) (lastOffset p) (removelast reads) ∧
         (e = Some ErrTooLargeStanza ↔
          ∃ r, last reads = Some r ∧
               exceeds (maxStanzaSize p) (lastOffset p) r.2 = true))
  ∧ (∀ maxSize last off,
       0 ≤ last < 2 ^ 63 → 0 ≤ off < 2 ^ 63 →
       exceeds maxSize last off = true ↔ 0 < maxSize ∧ maxSize < off - last)
  ∧ ParseElement (NewParser unterminated 10)
    = Ok (XNil,
          Some (DecoderError "XML syntax error on line 1: unexpected EOF"),
          mkParser (mkDecoder [] 29
                      (mkFailure "XML syntax error on line 1: unexpected EOF" 0))
                   None 0 [mkElement "a" [] "" []] true 0 10)
  ∧ (∀ p x e p',
       maxStanzaSize p ≤ 0 → ParseElement p = Ok (x, e, p') →
       e ≠ Some ErrTooLargeStanza)
  ∧ (∀ p name attr body (reads rest : list Read),
       maxStanzaSize p ≤ 0 →
       wf p → parsingIndex p = rootElementIndex →
       wellFormed (NElem name attr body) →
       pending (dec p) = reads ++ rest →
       reads.*1 = tokens (NElem name attr body) →
       ∃ p', ParseStanza p
             = Ok (XPtr (toElement (NElem name attr body)), None, p')).
Proof.
  split; [|split; [|split; [|split; [|split]]]].
  - intros p p1 pre t off rest Hpend Hadv Hsize.
    destruct (advance_frame _ _ _ _ Hadv) as (Hlast & Hmax & Herr).
    rewrite (ParseElement_advance _ _ _ _ _ _ Hpend Hadv), loop_unfold.
    unfold tooLarge. simpl. by rewrite Hmax, Hlast, Hsize, Herr.
  - apply ParseElement_sizes.
  - apply exceeds_spec.
  - reflexivity.
  - intros p x e p' Hmax Hparse He.
    destruct (ParseElement_sizes p x e p' Hparse) as (reads & _ & _ & Hiff).
    destruct Hiff as [Hiff _]. destruct (Hiff He) as (r & _ & Hr).
    by rewrite exceeds_disabled in Hr.
  - intros p name attr body reads rest Hmax Hwf Hroot Hn Hpend Hreads.
    destruct (ParseStanza_element p name attr body reads rest)
      as (off & _ & Hparse); try done; [|by eexists].
    apply Forall_forall. intros r _. by apply exceeds_disabled.
Qed.

(** With a limit of 10, the start tag of [<iq id='1'>], read at offset 11,
    ends the call. *)
Lemma size_limit_check_witness :
  ParseElement (NewParser (mkDecoder iqReads 0 EOF) 10)
  = Ok (XNil, Some ErrTooLargeStanza,
        mkParser (mkDecoder [(CharData "hi", 13);
                             (StartElement (tag "q") [], 17);
                             (EndElement (tag "q"), 17);
                             (EndElement (tag "iq"), 22)] 11 EOF)
                 None (-1) [] false 0 10).
Proof.
  destruct size_limit_check as [Hcheck _].
  apply (Hcheck (NewParser (mkDecoder iqReads 0 EOF) 10)
                (NewParser (mkDecoder iqReads 0 EOF) 10) []
                (StartElement (tag "iq") [mkAttr (tag "id") "1"]) 11);
    reflexivity.
Defined.

(** ** Character data *)




(** The three calls over [<a/>   <b/>], as the caller sees them. *)
Lemma two_stanzas_results :
  results 3 (NewParser twoStanzas 8)
  = [Ok (XPtr (Some (mkElement "a" [] "" [])), None);
     Ok (XNil, None);
     Ok (XPtr (Some (mkElement "b" [] "" [])), None)].
Proof. reflexivity. Qed.

(** ** The element handed out for a well-formed unit *)

Lemma lastText_elems (body : list Node) (acc : string) :
  forallb isElem body = true → lastText body acc = acc.
Proof.
  induction body as [|[data|name attr bd] body IH]; simpl; [done..|].
  apply IH.
Qed.

Lemma lastText_textFirst (body : list Node) (acc : string) :
  textFirst body = true → lastText body acc = leadText body acc.
Proof.
  revert acc. induction body as [|[data|name attr bd] body IH]; intros acc;
    simpl; [done| apply IH |apply lastText_elems].
Qed.

(** For a unit whose character data stands only before the first child, at
    every depth, the element the parser hands out is the element of the
    data model. *)
Lemma toElement_textLeads (k : nat) (n : Node) :
  (nsize n ≤ k)%nat → textLeads n = true → toElement n = toElementLast n.
Proof.
  revert n. induction k as [|k IH]; intros n Hsize Hlead.
  { pose proof (nsize_pos n). lia. }
  destruct n as [data|name attr body]; [done|].
  simpl in Hsize, Hlead. apply andb_true_iff in Hlead as [Hfirst Hall].
  simpl. rewrite lastText_textFirst by done. do 2 f_equal.
  fold (lsize body) in Hsize. assert (Hk : (lsize body ≤ k)%nat) by lia.
  clear Hsize Hfirst. induction body as [|c body IHbody]; [done|].
  simpl in Hall, Hk. apply andb_true_iff in Hall as [Hc Hall].
  fold (lsize body) in Hk.
  cbn [omap list_omap]. rewrite (IH c), IHbody; [done|done|lia|lia|done].
Qed.

(** C6, a counterexample.  The text of [a] in [<a><b></b>t</a>] is [t]; the
    element the parser hands out for it has the empty text. *)
Lemma text_after_child_dropped :
  textAfterChildReads.*1 = tokens textAfterChild
  ∧ toElementLast textAfterChild
    = Some (mkElement "a" [] "t" [mkElement "b" [] "" []])
  ∧ ParseStanza (NewParser (mkDecoder textAfterChildReads 0 EOF) 0)
    = Ok (XPtr (Some (mkElement "a" [] "" [mkElement "b" [] "" []])), None,
          mkParser (mkDecoder [] 15 EOF) None (-1) [] false 15 0).
Proof. repeat split; reflexivity. Qed.

(** C6, amended.  For every well-formed top-level element (no element
    inside named stream:stream, attribute names distinct within a tag) whose
    reads fit the size limit, the parser, retried while it returns neither
    an element nor an error, hands out the element with the qualified name,
    the attributes in their order with their values and the children in
    document order, at every depth; the text of an element is the character
    data that directly follows its start tag (of several such tokens the
    last), and character data after a child element is dropped.  Where
    character data stands only before the first child, that is the text of
    the data model. *)
Theorem element_reproduced (p : Parser) name attr body (reads rest : list Read) :
  wf p → parsingIndex p = rootElementIndex →
  wellFormed (NElem name attr body) →
  pending (dec p) = reads ++ rest →
  reads.*1 = tokens (NElem name attr body) →
  fits (maxStanzaSize p) (lastOffset p) reads →
  (∃ p',
     ParseStanza p
     = Ok (XPtr (Some (mkElement (xmlName (Space name) (Local name))
                           (qualified attr) (leadText body "")
                           (omap toElement body))), None, p')
     ∧ pending (dec p') = rest ∧ wf p' ∧ parsingIndex p' = rootElementIndex)
  ∧ (textLeads (NElem name attr body) = true →
     toElementLast (NElem name attr body)
     = Some (mkElement (xmlName (Space name) (Local name))
                       (qualified attr) (leadText body "")
                       (omap toElement body))).
Proof.
  intros Hwf Hroot Hn Hpend Hreads Hfits. split.
  - destruct (ParseStanza_element p name attr body reads rest)
      as (off & _ & Hparse); try done.
    eexists. split; [exact Hparse|]. by repeat split.
  - intros Hlead.
    by rewrite <- (toElement_textLeads (nsize (NElem name attr body))).
Qed.

Lemma element_reproduced_witness :
  ∃ p',
    ParseStanza (NewParser (mkDecoder iqReads 0 EOF) 30)
    = Ok (XPtr (Some (mkElement "iq" [mkAttribute "id" "1"] "hi"
                          [mkElement "q" [] "" []])), None, p')
    ∧ pending (dec p') = [] ∧ wf p' ∧ parsingIndex p' = rootElementIndex.
Proof.
  apply (element_reproduced
           (NewParser (mkDecoder iqReads 0 EOF) 30)
           (tag "iq") [mkAttr (tag "id") "1"]
           [NText "hi"; NElem (tag "q") [] []] iqReads []).
  - apply wf_NewParser.
  - reflexivity.
  - simpl. repeat split; try apply NoDup_nil_2. apply NoDup_singleton.
  - reflexivity.
  - reflexivity.
  - repeat (constructor; [reflexivity|]). constructor.
Defined.

(** ** Further properties of the parser *)

(** A pass that leaves for [done] does so at the top level, an element in
    hand, or with the invariant intact and an element still open. *)
Lemma classify_GotoDone (p p1 : Parser) (t : Token) :
  wf p → classify p t = Ok (GotoDone p1) →
  (parsingIndex p1 = rootElementIndex ∧ parsingStack p1 = [] ∧
   inElement p1 = false ∧ is_Some (nextElement p1))
  ∨ (0 ≤ parsingIndex p1 ∧ wf p1).
Proof.
  intros Hwf Hc. destruct t as [name attr|name|data|data|target inst|data];
    simpl in Hc; try done.
  - destruct (isStream name); [|done].
    destruct (closeElement (startElement p name attr)) as [p2|] eqn:Hclose;
      [|done].
    injection Hc as <-.
    by apply (closeElement_cases _ _ (wf_startElement p name attr Hwf)).
  - destruct (isStream name); [done|]. unfold endElement in Hc.
    destruct (index (parsingStack p) (parsingIndex p)) as [top|] eqn:Htop;
      [|done].
    simpl in Hc.
    destruct (negb (String.eqb (ElementName top)
                               (xmlName (Space name) (Local name)))).
    + simpl in Hc.
      destruct (Z.eqb_spec (parsingIndex p) rootElementIndex) as [Heq|_];
        [|done].
      rewrite index_negative in Htop; [done|].
      rewrite Heq. unfold rootElementIndex. lia.
    + destruct (closeElement p) as [p2|] eqn:Hclose; [|done]. simpl in Hc.
      destruct (parsingIndex p2 =? rootElementIndex); [|done].
      injection Hc as <-. by apply closeElement_cases in Hclose.
  - by destruct (inElement p), (setElementText p data).
Qed.

Lemma loop_element_at_top (pend : list Read) (p : Parser) (t : Token)
      (x : Element) (e : option error) (p' : Parser) :
  wf p → loop pend p t = Ok (XPtr (Some x), e, p') →
  e = None ∧ parsingIndex p' = rootElementIndex ∧ parsingStack p' = [] ∧
  inElement p' = false ∧ lastOffset p' = InputOffset (dec p').
Proof.
  revert p t. induction pend as [|[t' off] pend IH]; intros p t Hwf Hloop;
    rewrite loop_unfold in Hloop;
    (destruct (tooLarge p); [done|]);
    destruct (classify p t) as [f|] eqn:Hc; try done;
    pose proof (classify_wf p t f Hwf Hc) as Hf;
    destruct (classify_frame p t f Hc) as (_ & _ & _ & Hr);
    destruct f as [r|p1|p1]; simpl in Hloop, Hf, Hr.
  1,4: injection Hloop as ->; by destruct Hr as (_ & ? & _).
  1,3: destruct (classify_GotoDone p p1 t Hwf Hc)
         as [(Hidx & Hst & Hin & _)|[_ (_ & Hnx & _)]];
       [by injection Hloop as _ <- <-
       |unfold done in Hloop; rewrite Hnx in Hloop; done].
  - done.
  - eapply IH; [|exact Hloop]. by apply wf_set_dec.
Qed.

(** X1.  The invariant of the parser is kept by every call that returns:
    the index is the length of the stack less one, no result is left
    pending, and the flag [inElement] is set only while an element is
    open. *)
Theorem invariant_kept (p : Parser) (x : XElement) (e : option error)
        (p' : Parser) :
  wf p → ParseElement p = Ok (x, e, p') → wf p'.
Proof. intros Hwf Hparse. by apply (ParseElement_wf p (x, e, p')). Qed.

Lemma invariant_kept_witness :
  wf (mkParser (mkDecoder [(EndElement (tag "a"), 15)] 11 EOF) None 0
               [mkElement "a" [] "" [mkElement "b" [] "" []]] false 0 0).
Proof.
  apply (invariant_kept (NewParser (mkDecoder textAfterChildReads 0 EOF) 0)
           XNil None); [apply wf_NewParser | reflexivity].
Defined.

(** X2.  An element is handed out only at the top level: a call that
    returns an element returns no error with it, leaves the stack empty, the
    index at -1 and the flag unset, and has committed the decoder's
    offset. *)
Theorem element_only_at_top (p : Parser) (x : Element) (e : option error)
        (p' : Parser) :
  wf p → ParseElement p = Ok (XPtr (Some x), e, p') →
  e = None ∧ parsingIndex p' = rootElementIndex ∧ parsingStack p' = [] ∧
  inElement p' = false ∧ lastOffset p' = InputOffset (dec p').
Proof.
  intros Hwf Hparse. unfold ParseElement in Hparse.
  destruct (RawToken (dec p)) as [[t|err] d]; [|done].
  eapply loop_element_at_top; [|exact Hparse]. by apply wf_set_dec.
Qed.

Lemma element_only_at_top_witness :
  @None error = None ∧
  parsingIndex (mkParser (mkDecoder [] 18 EOF) None (-1) [] false 18 0)
  = rootElementIndex ∧
  parsingStack (mkParser (mkDecoder [] 18 EOF) None (-1) [] false 18 0) = [] ∧
  inElement (mkParser (mkDecoder [] 18 EOF) None (-1) [] false 18 0) = false ∧
  lastOffset (mkParser (mkDecoder [] 18 EOF) None (-1) [] false 18 0)
  = InputOffset (dec (mkParser (mkDecoder [] 18 EOF) None (-1) [] false 18 0)).
Proof.
  apply (element_only_at_top (NewParser mismatchedThenClosed 0)
           (mkElement "a" [] "" [mkElement "b" [] "" []]));
    [apply wf_NewParser | reflexivity].
Defined.

Lemma loop_consumes (pend : list Read) (p : Parser) (t : Token)
      (x : XElement) (e : option error) (p' : Parser) :
  pending (dec p) = pend → loop pend p t = Ok (x, e, p') →
  ∃ pre, pend = pre ++ pending (dec p').
Proof.
  revert p t. induction pend as [|[t' off] pend IH]; intros p t Hpend Hloop;
    rewrite loop_unfold in Hloop;
    (destruct (tooLarge p);
     [injection Hloop as <- <- <-; exists []; by rewrite Hpend|]);
    destruct (classify p t) as [f|] eqn:Hc; try done;
    destruct (classify_frame p t f Hc) as (Hdec & _ & _ & Hr);
    destruct f as [r|p1|p1]; simpl in Hloop, Hdec, Hr.
  1,4: injection Hloop as ->; simpl in Hr; destruct Hr as (-> & _);
       exists []; by rewrite Hpend.
  1,3: injection Hloop as <- <- <-; exists []; simpl; by rewrite Hdec, Hpend.
  - injection Hloop as <- <- <-. by exists [].
  - apply IH in Hloop as [pre Hpre]; [|done].
    exists ((t', off) :: pre). simpl. by rewrite <- Hpre.
Qed.

(** X3.  Every call makes progress on the input or reports that there is
    none: on an exhausted decoder the call returns the decoder's error and
    leaves the parser's own fields as they were, the decoder standing where
    its failing read has left it; otherwise it takes at least one read off
    the front of the pending reads, in order, and leaves the rest pending. *)
Theorem call_consumes (p : Parser) (x : XElement) (e : option error)
        (p' : Parser) :
  ParseElement p = Ok (x, e, p') →
  (pending (dec p) = [] ∧ x = XNil ∧
   e = Some (DecoderError (message (err (dec p)))) ∧
   p' = set_dec p (failed (dec p)))
  ∨ (∃ r pre, pending (dec p) = r :: pre ++ pending (dec p')).
Proof.
  intros Hparse.
  destruct (pending (dec p)) as [|[t off] rest] eqn:Hpend.
  - left. rewrite ParseElement_eof in Hparse by done.
    by injection Hparse as <- <- <-.
  - right. rewrite (ParseElement_read p t off rest Hpend) in Hparse.
    apply loop_consumes in Hparse as [pre Hpre]; [|done].
    exists (t, off), pre. by rewrite Hpre.
Qed.

Lemma call_consumes_witness :
  (pending (dec (NewParser (mkDecoder [] 3 (err unterminated)) 10)) = [] ∧
   XNil = XNil ∧
   Some (DecoderError "XML syntax error on line 1: unexpected EOF")
   = Some (DecoderError
             (message
                (err (dec (NewParser (mkDecoder [] 3 (err unterminated)) 10)))))
   ∧ mkParser (mkDecoder [] 29
                 (mkFailure "XML syntax error on line 1: unexpected EOF" 0))
              None (-1) [] false 0 10
     = set_dec (NewParser (mkDecoder [] 3 (err unterminated)) 10)
               (failed (dec (NewParser (mkDecoder [] 3 (err unterminated))
                                       10))))
  ∨ (∃ r pre,
       pending (dec (NewParser (mkDecoder [] 3 (err unterminated)) 10))
       = r :: pre
           ++ pending
                (dec (mkParser
                        (mkDecoder [] 29
                           (mkFailure
                              "XML syntax error on line 1: unexpected EOF" 0))
                        None (-1) [] false 0 10))).
Proof.
  apply (call_consumes (NewParser (mkDecoder [] 3 (err unterminated)) 10)
           XNil
           (Some (DecoderError "XML syntax error on line 1: unexpected EOF"))).
  reflexivity.
Defined.

(** ** Offsets *)

Lemma offsetsOk_read (p : Parser) (t : Token) (off : Z) (rest : list Read) :
  offsetsOk p → pending (dec p) = (t, off) :: rest →
  offsetsOk (set_dec p (mkDecoder rest off (err (dec p)))).
Proof.
  intros (Hlast & Hcur & Hfrom) Hpend. rewrite Hpend in Hfrom.
  destruct Hfrom as [Hoff Hfrom]. simpl in Hoff.
  repeat split; simpl; (lia || done).
Qed.

Lemma loop_offsetsOk (pend : list Read) (p : Parser) (t : Token) (r : Result) :
  offsetsOk p → pending (dec p) = pend → loop pend p t = Ok r →
  offsetsOk r.2.
Proof.
  revert p t. induction pend as [|[t' off] pend IH];
    intros p t Hok Hpend Hloop;
    rewrite loop_unfold in Hloop;
    (destruct (tooLarge p); [by injection Hloop as <-|]);
    destruct (classify p t) as [f|] eqn:Hc; try done;
    destruct (classify_frame p t f Hc) as (Hdec & Hlast & _ & Hr);
    destruct f as [r'|p1|p1]; simpl in Hloop, Hdec, Hlast, Hr.
  1,4: injection Hloop as ->; by destruct Hr as (-> & _).
  1,3: injection Hloop as <-; destruct Hok as (Hlo & Hcur & Hfrom);
       unfold offsetsOk; simpl; rewrite Hdec; unfold InputOffset;
       repeat split; (lia || done).
  - injection Hloop as <-. destruct Hok as (Hlo & Hcur & Hfrom).
    rewrite Hpend in Hfrom. simpl in Hfrom.
    unfold offsetsOk. simpl. rewrite Hdec, Hlast. lia.
  - eapply IH; [| |exact Hloop]; [|done].
    assert (Hok1 : offsetsOk p1) by (unfold offsetsOk; by rewrite Hdec, Hlast).
    apply (offsetsOk_read p1 t' off pend Hok1). by rewrite Hdec.
Qed.

Lemma offsetsOk_tooLarge (p : Parser) :
  offsetsOk p →
  tooLarge p = true ↔
  0 < maxStanzaSize p ∧ maxStanzaSize p < offset (dec p) - lastOffset p.
Proof.
  intros (Hlast & Hcur & _). unfold tooLarge, InputOffset.
  apply exceeds_spec; lia.
Qed.

(** X4.  Over a decoder whose offsets never decrease and stay within the
    non-negative [int64] range, every call keeps the committed offset at or
    before the current one, so the difference the size check takes never
    wraps and is never negative: the check fires exactly when the limit is
    positive and the plain difference exceeds it. *)
Theorem offsets_kept (p : Parser) (x : XElement) (e : option error)
        (p' : Parser) :
  offsetsOk p → ParseElement p = Ok (x, e, p') →
  offsetsOk p'
  ∧ sub64 (offset (dec p')) (lastOffset p')
    = offset (dec p') - lastOffset p'
  ∧ 0 ≤ offset (dec p') - lastOffset p'
  ∧ (tooLarge p' = true ↔
     0 < maxStanzaSize p' ∧
     maxStanzaSize p' < offset (dec p') - lastOffset p').
Proof.
  intros Hok Hparse.
  assert (Hok' : offsetsOk p').
  { destruct (pending (dec p)) as [|[t off] rest] eqn:Hpend.
    - rewrite ParseElement_eof in Hparse by done. injection Hparse as _ _ <-.
      destruct Hok as (Hlo & Hcur & Hfrom). rewrite Hpend in Hfrom.
      simpl in Hfrom. unfold offsetsOk. simpl. lia.
    - rewrite (ParseElement_read p t off rest Hpend) in Hparse.
      apply (loop_offsetsOk _ _ _ _ (offsetsOk_read p t off rest Hok Hpend)
               eq_refl Hparse). }
  split; [done|]. pose proof Hok' as (Hlast & Hcur & _).
  split; [apply sub64_exact; lia|]. split; [lia|].
  by apply offsetsOk_tooLarge.
Qed.

Lemma offsets_kept_witness :
  offsetsOk (mkParser (mkDecoder [] 22 EOF) None (-1) [] false 22 30)
  ∧ sub64 (offset (dec (mkParser (mkDecoder [] 22 EOF) None (-1) [] false 22 30)))
          (lastOffset (mkParser (mkDecoder [] 22 EOF) None (-1) [] false 22 30))
    = offset (dec (mkParser (mkDecoder [] 22 EOF) None (-1) [] false 22 30))
      - lastOffset (mkParser (mkDecoder [] 22 EOF) None (-1) [] false 22 30)
  ∧ 0 ≤ offset (dec (mkParser (mkDecoder [] 22 EOF) None (-1) [] false 22 30))
        - lastOffset (mkParser (mkDecoder [] 22 EOF) None (-1) [] false 22 30)
  ∧ (tooLarge (mkParser (mkDecoder [] 22 EOF) None (-1) [] false 22 30) = true ↔
     0 < maxStanzaSize (mkParser (mkDecoder [] 22 EOF) None (-1) [] false 22 30) ∧
     maxStanzaSize (mkParser (mkDecoder [] 22 EOF) None (-1) [] false 22 30)
     < offset (dec (mkParser (mkDecoder [] 22 EOF) None (-1) [] false 22 30))
       - lastOffset (mkParser (mkDecoder [] 22 EOF) None (-1) [] false 22 30)).
Proof.
  apply (offsets_kept (NewParser (mkDecoder iqReads 0 EOF) 30)
           (XPtr (Some (mkElement "iq" [mkAttribute "id" "1"] "hi"
                                  [mkElement "q" [] "" []]))) None).
  - unfold offsetsOk. simpl. lia.
  - reflexivity.
Defined.

(** ** An oversized stanza ends the stream *)

Lemma loop_tooLarge_stuck (pend : list Read) (p : Parser) (t : Token)
      (x : XElement) (p' : Parser) :
  loop pend p t = Ok (x, Some ErrTooLargeStanza, p') → tooLarge p' = true.
Proof.
  revert p t. induction pend as [|[t' off] pend IH]; intros p t Hloop;
    rewrite loop_unfold in Hloop;
    (destruct (tooLarge p) eqn:Hsize; [by injection Hloop as _ <-|]);
    destruct (classify p t) as [f|] eqn:Hc; try done;
    destruct (classify_frame p t f Hc) as (_ & _ & _ & Hr);
    destruct f as [r|p1|p1]; simpl in Hloop, Hr; try done.
  1,2: injection Hloop as ->; simpl in Hr; by destruct Hr as (_ & _ & [?|?]).
  by apply IH in Hloop.
Qed.

Lemma tooLarge_read (p : Parser) (t : Token) (off : Z) (rest : list Read) :
  offsetsOk p → tooLarge p = true → pending (dec p) = (t, off) :: rest →
  tooLarge (set_dec p (mkDecoder rest off (err (dec p)))) = true.
Proof.
  intros Hok Hsize Hpend.
  pose proof (offsetsOk_read p t off rest Hok Hpend) as Hok'.
  apply (offsetsOk_tooLarge _ Hok'). apply (offsetsOk_tooLarge _ Hok) in Hsize.
  destruct Hok as (_ & _ & Hfrom). rewrite Hpend in Hfrom.
  destruct Hfrom as [Hoff _]. simpl in *. lia.
Qed.

(** A failing read leaves the size check as it was, or trips it: the
    offset does not go back. *)
Lemma tooLarge_failed (p : Parser) :
  offsetsOk p → tooLarge p = true → pending (dec p) = [] →
  offsetsOk (set_dec p (failed (dec p)))
  ∧ tooLarge (set_dec p (failed (dec p))) = true.
Proof.
  intros Hok Hsize Hpend.
  assert (Hok' : offsetsOk (set_dec p (failed (dec p)))).
  { destruct Hok as (Hlo & Hcur & Hfrom). rewrite Hpend in Hfrom.
    simpl in Hfrom. unfold offsetsOk. simpl. lia. }
  split; [done|].
  apply (offsetsOk_tooLarge _ Hok'). apply (offsetsOk_tooLarge _ Hok) in Hsize.
  destruct Hok as (_ & _ & Hfrom). rewrite Hpend in Hfrom. simpl in *. lia.
Qed.

Lemma results_stuck (n : nat) (p : Parser) :
  offsetsOk p → tooLarge p = true →
  Forall (tooLargeOrExhausted (message (err (dec p)))) (results n p).
Proof.
  revert p. induction n as [|n IH]; intros p Hok Hsize; [constructor|].
  simpl. destruct (pending (dec p)) as [|[t off] rest] eqn:Hpend.
  - rewrite ParseElement_eof by done. constructor; [by right|].
    destruct (tooLarge_failed p Hok Hsize Hpend) as [Hok' Hsize'].
    apply (IH (set_dec p (failed (dec p))) Hok' Hsize').
  - rewrite (ParseElement_read p t off rest Hpend), loop_unfold.
    rewrite (tooLarge_read p t off rest Hok Hsize Hpend).
    constructor; [by left|].
    apply (IH (set_dec p (mkDecoder rest off (err (dec p))))).
    + by apply (offsetsOk_read p t off rest).
    + by apply (tooLarge_read p t off rest).
Qed.

(** X5.  [ErrTooLargeStanza] is final: over a decoder whose offsets never
    decrease (within the non-negative [int64] range), once a call has
    returned it, every later call on the parser returns it again, or the
    decoder's error once the input is used up; no element is handed out
    any more. *)
Theorem tooLarge_is_final (p : Parser) (x : XElement) (p' : Parser)
        (n : nat) :
  offsetsOk p → ParseElement p = Ok (x, Some ErrTooLargeStanza, p') →
  Forall (tooLargeOrExhausted (message (err (dec p')))) (results n p').
Proof.
  intros Hok Hparse.
  destruct (pending (dec p)) as [|[t off] rest] eqn:Hpend.
  { by rewrite ParseElement_eof in Hparse. }
  rewrite (ParseElement_read p t off rest Hpend) in Hparse.
  apply results_stuck.
  - apply (loop_offsetsOk _ _ _ _ (offsetsOk_read p t off rest Hok Hpend)
             eq_refl Hparse).
  - by apply loop_tooLarge_stuck in Hparse.
Qed.

Lemma tooLarge_is_final_witness :
  Forall (tooLargeOrExhausted
            (message (err (dec (mkParser (mkDecoder (tail iqReads) 11 EOF)
                                         None (-1) [] false 0 10)))))
         (results 6 (mkParser (mkDecoder (tail iqReads) 11 EOF)
                              None (-1) [] false 0 10)).
Proof.
  apply (tooLarge_is_final (NewParser (mkDecoder iqReads 0 EOF) 10) XNil).
  - unfold offsetsOk. simpl. lia.
  - reflexivity.
Defined.

(** ** No panic on input whose end tags are covered *)









(** ** Units in sequence *)

Lemma stanzas_units (units : list Node) (readss : list (list Read)) :
  Forall2 (λ n reads, reads.*1 = tokens n) units readss →
  Forall (λ n, isElem n = true ∧ wellFormed n) units →
  ∀ p rest,
    wf p → parsingIndex p = rootElementIndex →
    pending (dec p) = concat readss ++ rest →
    unitsFit (maxStanzaSize p) (lastOffset p) readss →
    stanzas (length units) p = (λ n, Ok (XPtr (toElement n), None)) <$> units.
Proof.
  induction 1 as [|n reads units readss Hreads _ IH]; intros Hunits p rest
    Hwf Hroot Hpend Hfit; [done|].
  apply Forall_cons in Hunits as [[Helem Hn] Hunits].
  destruct n as [data|name attr body]; [done|].
  destruct Hfit as [Hfit Hmore]. simpl in Hpend. rewrite <- app_assoc in Hpend.
  destruct (ParseStanza_element p name attr body reads (concat readss ++ rest))
    as (off & Hlast & Hparse); try done.
  cbn [length stanzas fmap list_fmap]. rewrite Hparse. f_equal.
  apply (IH Hunits _ rest); try done.
  simpl. unfold endOffset in Hmore. by rewrite Hlast in Hmore.
Qed.

(** X7.  Units come out in the order they stand in the input, and the size
    budget is counted per unit: over the reads of well-formed top-level
    elements one after another, each fitting the limit counted from the end
    of the one before, the driven parser hands out their elements one by
    one, in that order, however long the sequence is. *)
Theorem units_in_order (p : Parser) (units : list Node)
        (readss : list (list Read)) (rest : list Read) :
  wf p → parsingIndex p = rootElementIndex →
  Forall (λ n, isElem n = true ∧ wellFormed n) units →
  Forall2 (λ n reads, reads.*1 = tokens n) units readss →
  pending (dec p) = concat readss ++ rest →
  unitsFit (maxStanzaSize p) (lastOffset p) readss →
  stanzas (length units) p = (λ n, Ok (XPtr (toElement n), None)) <$> units.
Proof. intros. by eapply stanzas_units. Qed.

Lemma units_in_order_witness :
  stanzas 2 (NewParser (mkDecoder (iqReads ++ [(StartElement (tag "a") [], 26);
                                               (EndElement (tag "a"), 26)])
                                  0 EOF) 30)
  = [Ok (XPtr (Some (mkElement "iq" [mkAttribute "id" "1"] "hi"
                         [mkElement "q" [] "" []])), None);
     Ok (XPtr (Some (mkElement "a" [] "" [])), None)].
Proof.
  apply (units_in_order
           (NewParser (mkDecoder (iqReads ++ [(StartElement (tag "a") [], 26);
                                              (EndElement (tag "a"), 26)])
                                 0 EOF) 30)
           [NElem (tag "iq") [mkAttr (tag "id") "1"]
                  [NText "hi"; NElem (tag "q") [] []];
            NElem (tag "a") [] []]
           [iqReads; [(StartElement (tag "a") [], 26);
                      (EndElement (tag "a"), 26)]] []).
  - apply wf_NewParser.
  - reflexivity.
  - apply Forall_cons. split.
    { split; [reflexivity|]. simpl.
      repeat split; try apply NoDup_nil_2. apply NoDup_singleton. }
    apply Forall_cons. split; [|apply Forall_nil_2].
    split; [reflexivity|]. simpl. repeat split. apply NoDup_nil_2.
  - repeat constructor.
  - reflexivity.
  - simpl. repeat split; repeat (constructor; [reflexivity|]); constructor.
Defined.

(** ** Matching tag names *)

Lemma append_String (c : Ascii.ascii) (a s : string) :
  String c a +:+ s = String c (a +:+ s).
Proof. reflexivity. Qed.

Lemma append_empty (s : string) : "" +:+ s = s.
Proof. reflexivity. Qed.

Lemma colonFree_append (a b : string) :
  colonFree (a +:+ String colon b) = false.
Proof.
  induction a as [|c a IH]; [done|].
  rewrite append_String. cbn [colonFree]. by rewrite IH, andb_false_r.
Qed.

Lemma colonFree_colon (s : string) : colonFree (String colon s) = false.
Proof. done. Qed.

Lemma append_colon_inj (a b x y : string) :
  colonFree a = true → colonFree b = true →
  a +:+ String colon x = b +:+ String colon y → a = b ∧ x = y.
Proof.
  revert b. induction a as [|c a IH]; intros [|c' b] Ha Hb Heq;
    rewrite ?append_String, ?append_empty in Heq.
  - by injection Heq as Heq.
  - injection Heq as Hc Heq. subst c'. by rewrite colonFree_colon in Hb.
  - injection Heq as Hc Heq. subst c. by rewrite colonFree_colon in Ha.
  - injection Heq as Hc Heq. subst c'. cbn [colonFree] in Ha, Hb.
    apply andb_true_iff in Ha as [_ Ha]. apply andb_true_iff in Hb as [_ Hb].
    by destruct (IH b Ha Hb Heq) as [-> ->].
Qed.

Lemma xmlName_inj (n1 n2 : Name) :
  colonFree (Space n1) = true → colonFree (Local n1) = true →
  colonFree (Space n2) = true → colonFree (Local n2) = true →
  xmlName (Space n1) (Local n1) = xmlName (Space n2) (Local n2) → n1 = n2.
Proof.
  destruct n1 as [s1 l1], n2 as [s2 l2]. simpl. intros Hs1 Hl1 Hs2 Hl2.
  unfold xmlName. destruct s1 as [|c1 s1], s2 as [|c2 s2]; simpl.
  - by intros ->.
  - intros ->. change (colonFree (String c2 s2 +:+ String colon l2) = true) in Hl1.
    by rewrite colonFree_append in Hl1.
  - intros <-. change (colonFree (String c1 s1 +:+ String colon l1) = true) in Hl2.
    by rewrite colonFree_append in Hl2.
  - intros Heq.
    destruct (append_colon_inj (String c1 s1) (String c2 s2) l1 l2 Hs1 Hs2 Heq)
      as [-> ->]. done.
Qed.

(** X8.  Tags match on prefix and local name together: for names without a
    colon in either part, the end tag read right after a start tag closes
    that element, [endElement] reporting no error, exactly when its name is
    the start tag's name; the call of [endElement] never panics there. *)
Theorem end_tag_closes_iff (p : Parser) (n1 n2 : Name) (attr : list Attr) :
  wf p →
  colonFree (Space n1) = true → colonFree (Local n1) = true →
  colonFree (Space n2) = true → colonFree (Local n2) = true →
  returned (endElement (startElement p n1 attr) n2)
  ∧ ((∃ p', endElement (startElement p n1 attr) n2 = Ok (p', None)) ↔ n1 = n2).
Proof.
  intros Hwf Hs1 Hl1 Hs2 Hl2.
  pose proof (wf_startElement p n1 attr Hwf) as Hwf1.
  destruct (closeElement_ok (startElement p n1 attr) Hwf1) as [p1 Hclose].
  { destruct Hwf as (Hidx & _). simpl. lia. }
  unfold endElement. rewrite Hclose.
  destruct Hwf as (Hidx & _).
  assert (Htop : index (parsingStack (startElement p n1 attr))
                       (parsingIndex (startElement p n1 attr))
                 = Ok (mkElement (xmlName (Space n1) (Local n1))
                                 (attributeSet (qualified attr)) "" [])).
  { simpl. rewrite Hidx.
    replace (Z.of_nat (length (parsingStack p)) - 1 + 1)
      with (Z.of_nat (length (parsingStack p))) by lia.
    apply index_top. }
  rewrite Htop. cbn [mbind exec_bind ElementName].
  destruct (String.eqb_spec (xmlName (Space n1) (Local n1))
                            (xmlName (Space n2) (Local n2))) as [Heq|Hne];
    cbn [negb mbind exec_bind].
  - split; [by eexists|]. split; [intros _; by apply xmlName_inj|by eexists].
  - split; [by eexists|]. split; [by intros [p' ?]|by intros ->].
Qed.

Lemma end_tag_closes_iff_witness :
  returned (endElement (startElement (NewParser (mkDecoder [] 0 EOF) 0)
                                     (mkName "stream" "features") [])
                       (mkName "" "features"))
  ∧ ((∃ p', endElement (startElement (NewParser (mkDecoder [] 0 EOF) 0)
                                     (mkName "stream" "features") [])
                       (mkName "" "features") = Ok (p', None))
     ↔ mkName "stream" "features" = mkName "" "features").
Proof.
  apply (end_tag_closes_iff (NewParser (mkDecoder [] 0 EOF) 0)
           (mkName "stream" "features") (mkName "" "features") []);
    reflexivity || apply wf_NewParser.
Defined.

(** ** Comments, directives and processing instructions *)

Lemma closeElement_set_dec (p : Parser) (d : Decoder) :
  closeElement (set_dec p d)
  = match closeElement p with
    | Ok p' => Ok (set_dec p' d)
    | Panic => Panic
    end.
Proof.
  unfold closeElement. simpl.
  destruct (index (parsingStack p) (parsingIndex p)) as [e|]; [|done].
  destruct (slice_to (parsingStack p) (parsingIndex p)) as [st|]; [|done].
  simpl. destruct (parsingIndex p - 1 =? rootElementIndex); [done|].
  by destruct (index st (parsingIndex p - 1)).
Qed.

(** A pass does not look at the decoder. *)
Lemma classify_set_dec (p : Parser) (d : Decoder) (t : Token) :
  classify (set_dec p d) t
  = match classify p t with
    | Ok f => Ok (flow_set_dec d f)
    | Panic => Panic
    end.
Proof.
  destruct t as [name attr|name|data|data|target inst|data]; simpl; try done.
  - destruct (isStream name); [|done].
    change (startElement (set_dec p d) name attr)
      with (set_dec (startElement p name attr) d).
    rewrite closeElement_set_dec.
    by destruct (closeElement (startElement p name attr)).
  - destruct (isStream name); [done|]. unfold endElement. simpl.
    destruct (index (parsingStack p) (parsingIndex p)) as [top|]; [|done].
    simpl.
    destruct (negb (String.eqb (ElementName top)
                               (xmlName (Space name) (Local name)))); simpl.
    + by destruct (parsingIndex p =? rootElementIndex).
    + rewrite closeElement_set_dec. destruct (closeElement p) as [p1|]; [|done].
      simpl. by destruct (parsingIndex p1 =? rootElementIndex).
  - destruct (inElement p); simpl; [|done]. unfold setElementText. simpl.
    by destruct (index (parsingStack p) (parsingIndex p)).
Qed.

Lemma pump_set_dec (pend : list Read) (p : Parser) (d : Decoder) :
  err d = err (dec p) → view (pump pend (set_dec p d)) = view (pump pend p).
Proof.
  intros Herr. destruct pend as [|[t off] pend]; simpl.
  - by rewrite Herr.
  - by rewrite Herr.
Qed.

Lemma pumpBody_disabled (continue : Parser → exec Result) (p : Parser)
      (t : Token) :
  maxStanzaSize p ≤ 0 →
  pumpBody continue p t
  = f ← classify p t;
    match f with
    | Return (XNil, None, p1) => continue p1
    | Return r => Ok r
    | GotoDone p1 => Ok (done p1)
    | NextToken p1 => continue p1
    end.
Proof.
  intros Hmax. unfold pumpBody, tooLarge. by rewrite exceeds_disabled.
Qed.

Lemma pump_withoutNoise (reads : list Read) :
  ∀ p, maxStanzaSize p ≤ 0 →
       view (pump reads p) = view (pump (withoutNoise reads) p).
Proof.
  induction reads as [|[t off] rest IH]; intros p Hmax; [done|].
  set (d := mkDecoder (withoutNoise rest) off (err (dec p))).
  set (p0 := set_dec p (mkDecoder rest off (err (dec p)))).
  assert (Hcont : ∀ q, dec q = dec p0 → maxStanzaSize q = maxStanzaSize p →
                       view (pump rest q)
                       = view (pump (withoutNoise rest) (set_dec q d))).
  { intros q Hdec Hq. rewrite IH by lia. symmetry. apply pump_set_dec.
    by rewrite Hdec. }
  destruct (isNoise t) eqn:Hnoise.
  - unfold withoutNoise. rewrite filter_cons_False by (simpl; congruence).
    fold (withoutNoise rest).
    cbn [pump]. fold p0. rewrite pumpBody_disabled by done.
    assert (Hgoal : view (pump rest p0) = view (pump (withoutNoise rest) p)).
    { rewrite (Hcont p0) by done. by apply (pump_set_dec _ p d). }
    destruct t; try done; exact Hgoal.
  - unfold withoutNoise. rewrite filter_cons_True by done.
    fold (withoutNoise rest).
    cbn [pump]. fold p0.
    change (set_dec p (mkDecoder (withoutNoise rest) off (err (dec p))))
      with (set_dec p0 d).
    rewrite !pumpBody_disabled by done.
    rewrite classify_set_dec.
    destruct (classify p0 t) as [f|] eqn:Hc; [|done].
    destruct (classify_frame p0 t f Hc) as (Hdec & _ & Hmx & Hr).
    destruct f as [[[x e] p1]|p1|p1]; simpl in Hdec, Hmx, Hr |- *.
    + destruct x, e; try done. by apply Hcont.
    + by rewrite Hdec.
    + by apply Hcont.
Qed.

(** X9.  Comments, directives and processing instructions carry nothing
    into the result: with the size check disabled, the driven parser hands
    out the same element or error, and stands in the same state (stack,
    index, flag, committed offset), as over the input with those tokens
    taken out, wherever they stood, inside an element or between units. *)
Theorem noise_is_ignored (p : Parser) :
  maxStanzaSize p ≤ 0 →
  view (ParseStanza p)
  = view (ParseStanza
            (set_dec p (mkDecoder (withoutNoise (pending (dec p)))
                                  (offset (dec p)) (err (dec p))))).
Proof.
  intros Hmax. rewrite !ParseStanza_pump. simpl.
  rewrite pump_withoutNoise by done. symmetry. by apply pump_set_dec.
Qed.

Lemma noise_is_ignored_witness :
  view (ParseStanza
          (NewParser
             (mkDecoder [(ProcInst "xml" "version='1.0'", 21);
                         (StartElement (tag "a") [], 24);
                         (Comment "c", 32); (CharData "t", 33);
                         (ProcInst "p" "", 38); (EndElement (tag "a"), 42)]
                        0 EOF) 0))
  = view (ParseStanza
            (NewParser
               (mkDecoder [(StartElement (tag "a") [], 24); (CharData "t", 33);
                           (EndElement (tag "a"), 42)] 0 EOF) 0)).
Proof.
  apply (noise_is_ignored
           (NewParser
              (mkDecoder [(ProcInst "xml" "version='1.0'", 21);
                          (StartElement (tag "a") [], 24);
                          (Comment "c", 32); (CharData "t", 33);
                          (ProcInst "p" "", 38); (EndElement (tag "a"), 42)]
                         0 EOF) 0)).
  simpl. lia.
Defined.

(** ** The token that hands out an element *)

Lemma closeElement_root_element (p p' : Parser) (x : Element) :
  wf p → closeElement p = Ok p' → nextElement p' = Some x →
  parsingStack p = [x].
Proof.
  intros Hwf Hclose Hx.
  destruct (Z.lt_ge_cases (parsingIndex p) 0) as [Hneg|Hpos].
  { unfold closeElement in Hclose. by rewrite index_negative in Hclose. }
  destruct (wf_open p Hwf Hpos) as (s & e & Hstack & Hidx).
  destruct Hwf as (_ & Hnx & _).
  destruct p as [d nx idx st b lo mx]. simpl in *. subst.
  destruct s as [|parent s _] using rev_ind.
  - cbn [length app Z.of_nat] in Hclose.
    rewrite closeElement_root in Hclose. injection Hclose as <-.
    simpl in Hx. by injection Hx as ->.
  - rewrite closeElement_nested in Hclose. by injection Hclose as <-.
Qed.

Lemma classify_done_element (p p1 : Parser) (t : Token) (x : Element) :
  wf p → classify p t = Ok (GotoDone p1) → nextElement p1 = Some x →
  (∃ name, t = EndElement name ∧ isStream name = false ∧
           ElementName x = xmlName (Space name) (Local name))
  ∨ (∃ attr, t = StartElement streamTag attr ∧ x = streamOpen attr).
Proof.
  intros Hwf Hc Hx. destruct t as [name attr|name|data|data|target inst|data];
    simpl in Hc; try done.
  - right. destruct (isStream name) eqn:Hname; [|done].
    destruct (closeElement (startElement p name attr)) as [p2|] eqn:Hclose;
      [|done].
    apply isStream_true in Hname. subst name. fold streamTag in Hclose |- *.
    injection Hc as <-. exists attr. split; [done|].
    apply (closeElement_root_element _ _ x (wf_startElement p _ attr Hwf))
      in Hclose; [|done].
    simpl in Hclose. destruct (parsingStack p); [|by destruct l].
    by injection Hclose as <-.
  - left. destruct (isStream name) eqn:Hname; [done|]. exists name.
    split; [done|]. split; [done|]. unfold endElement in Hc.
    destruct (index (parsingStack p) (parsingIndex p)) as [top|] eqn:Htop;
      [|done].
    simpl in Hc.
    destruct (String.eqb_spec (ElementName top)
                              (xmlName (Space name) (Local name)))
      as [Heq|Hne]; simpl in Hc.
    + destruct (closeElement p) as [p2|] eqn:Hclose; [|done]. simpl in Hc.
      destruct (parsingIndex p2 =? rootElementIndex); [|done].
      injection Hc as <-.
      apply (closeElement_root_element _ _ x Hwf) in Hclose; [|done].
      destruct Hwf as (Hidx & _). rewrite Hclose in Htop, Hidx.
      rewrite Hidx in Htop. simpl in Htop. by injection Htop as <-.
    + destruct (Z.eqb_spec (parsingIndex p) rootElementIndex) as [Hroot|_];
        [|done].
      rewrite index_negative in Htop; [done|].
      rewrite Hroot. unfold rootElementIndex. lia.
  - by destruct (inElement p), (setElementText p data).
Qed.

Lemma loop_element_token (pend : list Read) (p : Parser) (t : Token)
      (x : Element) (e : option error) (p' : Parser) :
  wf p → pending (dec p) = pend → loop pend p t = Ok (XPtr (Some x), e, p') →
  ∃ pre t',
    (t, offset (dec p)) :: pend
    = pre ++ (t', offset (dec p')) :: pending (dec p') ∧
    ((∃ name, t' = EndElement name ∧ isStream name = false ∧
              ElementName x = xmlName (Space name) (Local name))
     ∨ (∃ attr, t' = StartElement streamTag attr ∧ x = streamOpen attr)).
Proof.
  revert p t. induction pend as [|[t1 off] pend IH];
    intros p t Hwf Hpend Hloop;
    rewrite loop_unfold in Hloop;
    (destruct (tooLarge p); [done|]);
    destruct (classify p t) as [f|] eqn:Hc; try done;
    pose proof (classify_wf p t f Hwf Hc) as Hf;
    destruct (classify_frame p t f Hc) as (Hdec & _ & _ & Hr);
    destruct f as [r|p1|p1]; simpl in Hloop, Hf, Hdec, Hr.
  1,4: injection Hloop as ->; by destruct Hr as (_ & ? & _).
  1,3: injection Hloop as Hx <- <-; exists [], t; simpl;
       rewrite Hdec, Hpend; split; [done|];
       by apply (classify_done_element p p1 t x Hwf Hc).
  - done.
  - apply IH in Hloop as (pre & t' & Hpre & Hcase); [|by apply wf_set_dec|done].
    exists ((t, offset (dec p)) :: pre), t'. split; [|done].
    simpl in Hpre |- *. by rewrite Hpre.
Qed.

(** X10.  An element is handed out on the token that completes it and on
    no other: the last token a call that returns an element has read is the
    end tag of that element, the element carrying the tag's qualified name,
    or else a start tag stream:stream read at the top level, the element
    being that tag's. *)
Theorem element_on_its_end_tag (p : Parser) (x : Element) (e : option error)
        (p' : Parser) :
  wf p → ParseElement p = Ok (XPtr (Some x), e, p') →
  ∃ pre t,
    pending (dec p) = pre ++ (t, offset (dec p')) :: pending (dec p') ∧
    ((∃ name, t = EndElement name ∧ isStream name = false ∧
              ElementName x = xmlName (Space name) (Local name))
     ∨ (∃ attr, t = StartElement streamTag attr ∧ x = streamOpen attr)).
Proof.
  intros Hwf Hparse.
  destruct (pending (dec p)) as [|[t off] rest] eqn:Hpend.
  { by rewrite ParseElement_eof in Hparse. }
  rewrite (ParseElement_read p t off rest Hpend) in Hparse.
  by apply loop_element_token in Hparse.
Qed.

Lemma element_on_its_end_tag_witness :
  ∃ pre t,
    pending (dec (NewParser mismatchedThenClosed 0))
    = pre ++ (t, offset (dec (mkParser (mkDecoder [] 18 EOF) None (-1) []
                                       false 18 0)))
          :: pending (dec (mkParser (mkDecoder [] 18 EOF) None (-1) []
                                    false 18 0)) ∧
    ((∃ name, t = EndElement name ∧ isStream name = false ∧
              ElementName (mkElement "a" [] "" [mkElement "b" [] "" []])
              = xmlName (Space name) (Local name))
     ∨ (∃ attr, t = StartElement streamTag attr ∧
                mkElement "a" [] "" [mkElement "b" [] "" []]
                = streamOpen attr)).
Proof.
  apply (element_on_its_end_tag (NewParser mismatchedThenClosed 0)
           (mkElement "a" [] "" [mkElement "b" [] "" []]) None);
    [apply wf_NewParser | reflexivity].
Defined.

(** ** Inside a well-formed unit *)

Lemma stackOf_top (frames : list (Name * list Node)) (fr : Name * list Node)
      (stack : list Element) :
  stackOf (fr :: frames) stack →
  ∃ s top, stack = s ++ [top] ∧
           ElementName top = xmlName (Space fr.1) (Local fr.1) ∧
           stackOf frames s.
Proof.
  unfold stackOf. intros Hst.
  destruct stack as [|top s _] using rev_ind.
  { by apply Forall2_nil_cons_inv in Hst. }
  rewrite reverse_snoc in Hst. apply Forall2_cons in Hst as [Htop Hst].
  by exists s, top.
Qed.

Lemma stackOf_snoc (frames : list (Name * list Node)) (fr : Name * list Node)
      (s : list Element) (top : Element) :
  ElementName top = xmlName (Space fr.1) (Local fr.1) → stackOf frames s →
  stackOf (fr :: frames) (s ++ [top]).
Proof.
  intros Htop Hst. unfold stackOf. rewrite reverse_snoc. by constructor.
Qed.

(** A driven parser inside a well-formed unit, over reads that fit the size
    limit and stop short of the unit's end: it goes through them all
    without returning, and stands inside the unit still, the committed
    offset and the limit as they were. *)
Lemma pump_frames (reads : list Read) :
  ∀ frames more rest d (stack : list Element) b lo mx,
    reads.*1 ++ more = unwind frames → more ≠ [] →
    framesOk frames → stackOf frames stack →
    fits mx lo reads →
    ∃ d' stack' b' frames',
      pump (reads ++ rest)
           (mkParser d None (Z.of_nat (length stack) - 1) stack b lo mx)
      = pump rest
          (mkParser d' None (Z.of_nat (length stack') - 1) stack' b' lo mx)
      ∧ err d' = err d ∧ stackOf frames' stack' ∧ framesOk frames'
      ∧ unwind frames' = more.
Proof.
  induction reads as [|[t off] reads IH];
    intros frames more rest d stack b lo mx Htok Hmore Hok Hst Hfits.
  { by exists d, stack, b, frames. }
  apply Forall_cons in Hfits as [Hoff Hfits]. simpl in Hoff.
  destruct frames as [|[name body] frames].
  { simpl in Htok. done. }
  apply Forall_cons in Hok as [[Hname Hbody] Hok]. simpl in Hname, Hbody.
  destruct (stackOf_top _ _ _ Hst) as (s & top & -> & Htop & Hs).
  simpl in Htop.
  replace (Z.of_nat (length (s ++ [top])) - 1) with (Z.of_nat (length s))
    by (rewrite length_app; simpl; lia).
  rewrite <- app_comm_cons.
  destruct body as [|[data|name' attr body'] body].
  - simpl in Htok. injection Htok as -> Htok.
    destruct frames as [|[name2 body2] frames].
    { simpl in Htok. by destruct reads, more. }
    destruct (stackOf_top _ _ _ Hs) as (s2 & parent & -> & Hparent & Hs2).
    simpl in Hparent.
    rewrite pump_end_nested by done.
    destruct (IH ((name2, body2) :: frames) more rest
                 (mkDecoder (reads ++ rest) off (err d))
                 (s2 ++ [AppendElement parent top]) false lo mx)
      as (d' & stack' & b' & frames' & Hpump & Herr & Hst' & Hok' & Hun);
      try done.
    { apply stackOf_snoc; [|done]. by destruct parent. }
    replace (Z.of_nat (length (s2 ++ [AppendElement parent top])) - 1)
      with (Z.of_nat (length s2)) in Hpump
      by (rewrite length_app; simpl; lia).
    by exists d', stack', b', frames'.
  - simpl in Htok. injection Htok as -> Htok. destruct Hbody as [_ Hbody].
    assert (Hstep :
      pump ((CharData data, off) :: reads ++ rest)
           (mkParser d None (Z.of_nat (length s)) (s ++ [top]) b lo mx)
      = pump (reads ++ rest)
          (mkParser (mkDecoder (reads ++ rest) off (err d)) None
                    (Z.of_nat (length s))
                    (s ++ [if b then setText top data else top]) b lo mx)).
    { destruct b; [by apply pump_text_in | by apply pump_text_out]. }
    rewrite Hstep.
    destruct (IH ((name, body) :: frames) more rest
                 (mkDecoder (reads ++ rest) off (err d))
                 (s ++ [if b then setText top data else top]) b lo mx)
      as (d' & stack' & b' & frames' & Hpump & Herr & Hst' & Hok' & Hun);
      try done.
    { by constructor. }
    { apply stackOf_snoc; [|done]. simpl. by destruct b, top. }
    replace (Z.of_nat (length (s ++ [if b then setText top data else top]))
             - 1)
      with (Z.of_nat (length s)) in Hpump
      by (rewrite length_app; simpl; lia).
    by exists d', stack', b', frames'.
  - destruct Hbody as [(Hname' & Hnd & Hbody') Hbody].
    simpl in Htok. rewrite <- !app_assoc in Htok. simpl in Htok.
    injection Htok as -> Htok.
    rewrite pump_start by done.
    destruct (IH ((name', body') :: (name, body) :: frames) more rest
                 (mkDecoder (reads ++ rest) off (err d))
                 ((s ++ [top])
                    ++ [mkElement (xmlName (Space name') (Local name'))
                                  (attributeSet (qualified attr)) "" []])
                 true lo mx)
      as (d' & stack' & b' & frames' & Hpump & Herr & Hst' & Hok' & Hun);
      try done.
    { apply Forall_cons. split; [by split|]. apply Forall_cons. by split. }
    { apply stackOf_snoc; [done|]. by apply stackOf_snoc. }
    match type of Hpump with
    | context [Z.of_nat (length ?l) - 1] =>
        replace (Z.of_nat (length l) - 1) with (Z.of_nat (length s) + 1)
          in Hpump by (rewrite !length_app; simpl; lia)
    end.
    by exists d', stack', b', frames'.
Qed.

Lemma pump_unit_prefix name attr body (reads : list Read) (more : list Token)
      (rest : list Read) d lo mx :
  wellFormed (NElem name attr body) →
  reads.*1 ++ more = tokens (NElem name attr body) → more ≠ [] →
  fits mx lo reads →
  ∃ q, pump (reads ++ rest) (mkParser d None (-1) [] false lo mx) = pump rest q
       ∧ lastOffset q = lo ∧ maxStanzaSize q = mx ∧ err (dec q) = err d.
Proof.
  intros (Hname & Hnd & Hbody) Htok Hmore Hfits.
  destruct reads as [|[t off] reads]; [by eexists|].
  apply Forall_cons in Hfits as [Hoff Hfits]. simpl in Hoff.
  simpl in Htok. injection Htok as -> Htok.
  rewrite <- app_comm_cons, pump_start by done.
  change (-1 + 1)
    with (Z.of_nat (length [mkElement (xmlName (Space name) (Local name))
                                      (attributeSet (qualified attr)) "" []])
          - 1).
  destruct (pump_frames reads [(name, body)] more rest
              (mkDecoder (reads ++ rest) off (err d))
              ([] ++ [mkElement (xmlName (Space name) (Local name))
                                (attributeSet (qualified attr)) "" []])
              true lo mx)
    as (d' & stack' & b' & frames' & Hpump & Herr & _); try done.
  - apply Forall_cons. split; [by split|constructor].
  - apply (stackOf_snoc [] (name, body) []); [done|constructor].
  - eexists. split; [exact Hpump|]. by repeat split.
Qed.

Lemma first_exceeding (maxSize from : Z) (reads : list Read) :
  Exists (λ r, exceeds maxSize from r.2 = true) reads →
  ∃ pre r post,
    reads = pre ++ r :: post ∧ fits maxSize from pre ∧
    exceeds maxSize from r.2 = true.
Proof.
  induction reads as [|r reads IH]; intros Hex.
  { by apply Exists_nil in Hex. }
  destruct (exceeds maxSize from r.2) eqn:Hr.
  - exists [], r, reads. repeat split; [constructor|done].
  - apply Exists_cons in Hex as [Hex|Hex]; [congruence|].
    destruct (IH Hex) as (pre & r' & post & -> & Hpre & Hr').
    exists (r :: pre), r', post. repeat split; [by constructor|done].
Qed.

(** X11.  A well-formed unit that runs over the size limit is refused, never
    handed out: when the size check fires on any token of the unit (on
    [int64] offsets: the token ends more than the positive limit after the
    committed offset), the driven parser ends with [ErrTooLargeStanza]. *)
Theorem oversized_unit_refused (p : Parser) name attr body
        (reads rest : list Read) :
  wf p → parsingIndex p = rootElementIndex →
  wellFormed (NElem name attr body) →
  pending (dec p) = reads ++ rest →
  reads.*1 = tokens (NElem name attr body) →
  Exists (λ r, exceeds (maxStanzaSize p) (lastOffset p) r.2 = true) reads →
  ∃ p', ParseStanza p = Ok (XNil, Some ErrTooLargeStanza, p').
Proof.
  intros Hwf Hroot Hn Hpend Hreads Hex.
  destruct (wf_root p Hwf Hroot) as (Hstack & Hnext & Hin).
  destruct (first_exceeding _ _ _ Hex) as (pre & [t off] & post & -> & Hpre & Hr).
  simpl in Hr.
  rewrite ParseStanza_pump, Hpend. unfold rootElementIndex in Hroot.
  destruct p as [d nx idx st b lo mx]. simpl in *. subst.
  rewrite fmap_app in Hreads. rewrite <- app_assoc.
  destruct (pump_unit_prefix name attr body pre (((t, off) :: post).*1)
              (((t, off) :: post) ++ rest) d lo mx)
    as (q & -> & Hlo & Hmx & _); try done.
  rewrite <- app_comm_cons. cbn [pump]. unfold pumpBody, tooLarge. simpl.
  rewrite Hlo, Hmx, Hr. by eexists.
Qed.

Lemma oversized_unit_refused_witness :
  ∃ p', ParseStanza (NewParser (mkDecoder iqReads 0 EOF) 20)
        = Ok (XNil, Some ErrTooLargeStanza, p').
Proof.
  apply (oversized_unit_refused (NewParser (mkDecoder iqReads 0 EOF) 20)
           (tag "iq") [mkAttr (tag "id") "1"]
           [NText "hi"; NElem (tag "q") [] []] iqReads []).
  - apply wf_NewParser.
  - reflexivity.
  - simpl. repeat split; try apply NoDup_nil_2. apply NoDup_singleton.
  - reflexivity.
  - reflexivity.
  - unfold iqReads. do 4 apply Exists_cons_tl. by apply Exists_cons_hd.
Defined.

(** X12.  A unit cut short is never handed out: when the input ends inside
    a well-formed unit, after reads that fit the size limit, the driven
    parser ends with the decoder's error. *)
Theorem truncated_unit_fails (p : Parser) name attr body (reads : list Read)
        (more : list Token) :
  wf p → parsingIndex p = rootElementIndex →
  wellFormed (NElem name attr body) →
  pending (dec p) = reads →
  reads.*1 ++ more = tokens (NElem name attr body) → more ≠ [] →
  fits (maxStanzaSize p) (lastOffset p) reads →
  ∃ p', ParseStanza p
        = Ok (XNil, Some (DecoderError (message (err (dec p)))), p').
Proof.
  intros Hwf Hroot Hn Hpend Htok Hmore Hfits.
  destruct (wf_root p Hwf Hroot) as (Hstack & Hnext & Hin).
  rewrite ParseStanza_pump, Hpend. unfold rootElementIndex in Hroot.
  destruct p as [d nx idx st b lo mx]. simpl in *. subst.
  destruct (pump_unit_prefix name attr body (pending d) more [] d lo mx)
    as (q & Hpump & _ & _ & Herr); try done.
  rewrite app_nil_r in Hpump. rewrite Hpump. simpl. rewrite Herr. by eexists.
Qed.

Lemma truncated_unit_fails_witness :
  ∃ p', ParseStanza (NewParser (mkDecoder (take 3 iqReads) 0 EOF) 30)
        = Ok (XNil,
              Some (DecoderError
                      (message
                         (err (dec (NewParser (mkDecoder (take 3 iqReads) 0 EOF)
                                              30))))), p').
Proof.
  apply (truncated_unit_fails
           (NewParser (mkDecoder (take 3 iqReads) 0 EOF) 30)
           (tag "iq") [mkAttr (tag "id") "1"]
           [NText "hi"; NElem (tag "q") [] []] (take 3 iqReads)
           [EndElement (tag "q"); EndElement (tag "iq")]).
  - apply wf_NewParser.
  - reflexivity.
  - simpl. repeat split; try apply NoDup_nil_2. apply NoDup_singleton.
  - reflexivity.
  - reflexivity.
  - done.
  - repeat (constructor; [reflexivity|]). constructor.
Defined.

(** ** The committed offset, call by call *)

Lemma loop_lastOffset (pend : list Read) (p : Parser) (t : Token)
      (x : XElement) (e : option error) (p' : Parser) :
  loop pend p t = Ok (x, e, p') →
  (x = XNil ∧ lastOffset p' = lastOffset p)
  ∨ (∃ ptr, x = XPtr ptr ∧ e = None ∧ lastOffset p' = InputOffset (dec p')).
Proof.
  revert p t. induction pend as [|[t' off] pend IH]; intros p t Hloop;
    rewrite loop_unfold in Hloop;
    (destruct (tooLarge p); [injection Hloop as <- <- <-; by left|]);
    destruct (classify p t) as [f|] eqn:Hc; try done;
    destruct (classify_frame p t f Hc) as (_ & Hlast & _ & Hf);
    destruct f as [r|p1|p1]; simpl in Hloop, Hlast, Hf.
  1,4: injection Hloop as ->; simpl in Hf; destruct Hf as (-> & -> & _);
       by left.
  1,3: injection Hloop as <- <- <-; right; by eexists.
  - injection Hloop as <- <- <-. by left.
  - apply IH in Hloop. simpl in Hloop. by rewrite Hlast in Hloop.
Qed.

(** X13.  The committed offset moves only where the call leaves through
    [done].  A call that returns the nil interface, be it with the decoder's
    error, with [ErrTooLargeStanza] or [ErrStreamClosedByPeer], or with no
    error (on a processing instruction, or on character data read with the
    flag unset), leaves the committed offset as it was, so the bytes it has
    consumed count against the size limit of the calls that follow; an error
    always comes with the nil interface; and a call that returns any other
    [XElement] returns no error and has committed the decoder's offset. *)
Theorem lastOffset_kept (p : Parser) (x : XElement) (e : option error)
        (p' : Parser) :
  ParseElement p = Ok (x, e, p') →
  (x = XNil → lastOffset p' = lastOffset p)
  ∧ (is_Some e → x = XNil)
  ∧ (∀ ptr, x = XPtr ptr → e = None ∧ lastOffset p' = InputOffset (dec p')).
Proof.
  intros Hparse.
  assert (H : (x = XNil ∧ lastOffset p' = lastOffset p)
              ∨ (∃ ptr, x = XPtr ptr ∧ e = None ∧
                        lastOffset p' = InputOffset (dec p'))).
  { unfold ParseElement in Hparse.
    destruct (RawToken (dec p)) as [[t|err] d].
    - by apply loop_lastOffset in Hparse.
    - injection Hparse as <- <- <-. by left. }
  destruct H as [[-> Hlast]|(ptr & -> & -> & Hlast)].
  - repeat split; done.
  - split; [done|]. split; [by intros [? ?]|]. by intros ? _.
Qed.

Lemma lastOffset_kept_witness :
  (XNil = XNil →
   lastOffset (mkParser (mkDecoder [(EndElement (tag "a"), 15)] 11 EOF) None 0
                        [mkElement "a" [] "" [mkElement "b" [] "" []]]
                        false 0 0)
   = lastOffset (NewParser (mkDecoder textAfterChildReads 0 EOF) 0))
  ∧ (is_Some (@None error) → XNil = XNil)
  ∧ (∀ ptr, XNil = XPtr ptr →
            @None error = None ∧
            lastOffset (mkParser (mkDecoder [(EndElement (tag "a"), 15)] 11 EOF)
                                 None 0
                                 [mkElement "a" [] "" [mkElement "b" [] "" []]]
                                 false 0 0)
            = InputOffset (dec (mkParser
                                  (mkDecoder [(EndElement (tag "a"), 15)] 11 EOF)
                                  None 0
                                  [mkElement "a" [] ""
                                             [mkElement "b" [] "" []]]
                                  false 0 0))).
Proof.
  apply (lastOffset_kept (NewParser (mkDecoder textAfterChildReads 0 EOF) 0)
           XNil None). reflexivity.
Defined.
